(** * style.js: navigation, animations, theme and utility helpers

    A shallow embedding of [src/style.js].  The browser objects the script
    talks to (the document, [localStorage], the intersection observer, the
    timer queue, the clipboard) are explicit state; every script function
    is a function on that state. *)

From stdpp Require Import base option list gmap strings.
From Stdlib Require Import ZArith NArith Ascii.

Local Open Scope Z_scope.

(** ** JavaScript strings

    A JavaScript string is a sequence of UTF-16 code units; [===] on two
    strings compares the sequences. *)

Abbreviation jsstring := (list N).

Definition js (s : string) : jsstring :=
  map N_of_ascii (String.list_ascii_of_string s).

(** [String.prototype.split] with a one-unit separator: the pieces between
    the separators, in order; never the empty array. *)
Fixpoint split (sep : N) (s : jsstring) : list jsstring :=
  match s with
  | [] => [[]]
  | c :: rest =>
      if N.eqb c sep then [] :: split sep rest
      else match split sep rest with
           | [] => [[c]]
           | piece :: pieces => (c :: piece) :: pieces
           end
  end.

(** [Array.prototype.pop] read as an expression: the last item, or
    [undefined] (here [None]) on the empty array. *)
Definition pop (pieces : list jsstring) : option jsstring := last pieces.

(** [a || b] where [a] is a string or [undefined]: the empty string and
    [undefined] are falsy. *)
Definition or_else (a : option jsstring) (b : jsstring) : jsstring :=
  match a with
  | Some (c :: s) => c :: s
  | Some [] | None => b
  end.

Definition slash : N := 47.

(** ** JavaScript values and calls

    A function value carries its [name] and the code it runs.  Of an
    object that cannot be called the script reads one thing, its [name]
    property: [VObject] carries what that read gives, [undefined] for an
    object without the property. *)

Inductive Value :=
| VUndefined
| VNull
| VBoolean (b : bool)
| VNumber (z : Z)
| VString (s : jsstring)
| VFunction (name : jsstring) (code : nat)
| VObject (name : Value).

(** How a call ends: with a value, or with a thrown value. *)
Inductive Completion (A : Type) :=
| Normal (a : A)
| Abrupt (e : Value).
Arguments Normal {A} a.
Arguments Abrupt {A} e.

(** The [TypeError] the engine throws when a property of [null] or
    [undefined] is read, or a non-function is called. *)
Definition TypeError : Value := VString (js "TypeError").

(** The [SyntaxError] of a selector or a measure that cannot be read. *)
Definition SyntaxError : Value := VString (js "SyntaxError").

(** The exceptions of [localStorage]: reading [window.localStorage]
    where the browser blocks storage, and [setItem] where the item
    cannot be stored. *)
Definition SecurityError : Value := VString (js "SecurityError").
Definition QuotaExceededError : Value := VString (js "QuotaExceededError").

(** ** The document *)

Record Element := mkElement {
  attributes : gmap jsstring jsstring;
  classList : list jsstring;
  style : gmap jsstring jsstring;
  textContent : jsstring;
  value : jsstring;
  rectTop : Z
}.

(** [DOMTokenList]: an ordered set of class names. *)
Definition contains (c : jsstring) (l : list jsstring) : bool :=
  bool_decide (c ∈ l).

Definition add (c : jsstring) (l : list jsstring) : list jsstring :=
  if contains c l then l else l ++ [c].

Definition remove (c : jsstring) (l : list jsstring) : list jsstring :=
  filter (λ d, d ≠ c) l.

Definition toggle (c : jsstring) (l : list jsstring) : list jsstring :=
  if contains c l then remove c l else add c l.

Definition set_classList (l : list jsstring) (e : Element) : Element :=
  mkElement (attributes e) l (style e) (textContent e) (value e) (rectTop e).

Definition set_style (p v : jsstring) (e : Element) : Element :=
  mkElement (attributes e) (classList e) (<[p := v]> (style e))
            (textContent e) (value e) (rectTop e).

Definition set_textContent (t : jsstring) (e : Element) : Element :=
  mkElement (attributes e) (classList e) (style e) t (value e) (rectTop e).

Definition set_value (t : jsstring) (e : Element) : Element :=
  mkElement (attributes e) (classList e) (style e) (textContent e) t (rectTop e).

(** A freshly created, detached element. *)
Definition createElement : Element := mkElement ∅ [] ∅ [] [] 0.

(** The document: its body, and the other elements in document order.
    An element reference is a position in it. *)
Record Document := mkDocument {
  body : Element;
  nodes : list Element
}.

Inductive Ref :=
| RBody
| RNode (i : nat).

Global Instance Ref_eq_dec : EqDecision Ref.
Proof. solve_decision. Defined.

Definition element_at (d : Document) (r : Ref) : option Element :=
  match r with
  | RBody => Some (body d)
  | RNode i => nodes d !! i
  end.

Definition update_at (r : Ref) (f : Element → Element) (d : Document) : Document :=
  match r with
  | RBody => mkDocument (f (body d)) (nodes d)
  | RNode i => mkDocument (body d) (alter f i (nodes d))
  end.

Definition refs (d : Document) : list Ref :=
  RBody :: (RNode <$> seq 0 (length (nodes d))).

(** The selectors the script writes out itself: [.c] for a class name
    and [[a]] for the name of an attribute kept in [attributes], that is
    any attribute but [class], [style] and [value], which the model
    keeps apart. *)
Inductive Selector :=
| ByClass (c : jsstring)
| ByAttribute (a : jsstring).

Definition matches (sel : Selector) (e : Element) : bool :=
  match sel with
  | ByClass c => contains c (classList e)
  | ByAttribute a => bool_decide (is_Some (attributes e !! a))
  end.

Definition selects (d : Document) (p : Element → bool) (r : Ref) : bool :=
  match element_at d r with
  | Some e => p e
  | None => false
  end.

Definition querySelectorAll (sel : Selector) (d : Document) : list Ref :=
  filter (λ r, selects d (matches sel) r = true) (refs d).

Definition querySelector (sel : Selector) (d : Document) : option Ref :=
  head (querySelectorAll sel d).

Definition getElementById (i : jsstring) (d : Document) : option Ref :=
  head (filter (λ r, selects d (λ e, bool_decide (attributes e !! js "id" = Some i)) r = true)
               (refs d)).

(** [appendChild] on the body puts the element last in document order;
    [removeChild] takes the element at a position out. *)
Definition appendChild (e : Element) (d : Document) : Document * Ref :=
  (mkDocument (body d) (nodes d ++ [e]), RNode (length (nodes d))).

Definition removeChild (r : Ref) (d : Document) : Document :=
  match r with
  | RBody => d
  | RNode i => mkDocument (body d) (delete i (nodes d))
  end.

(** ** The page state the script runs in *)

(** The two click listeners the script registers. *)
Inductive Handler :=
| MobileNavToggleClick
| ThemeToggleClick.

(** What the script does to the outside, in order. *)
Inductive Effect :=
| StyleWrite (r : Ref) (property text : jsstring)
| ScrollTo (top : Z)
| ConsoleError (name : Value) (error : Value)
| CreatedElement
| AppendedChild (r : Ref)
| Selected (r : Ref)
| RemovedChild (r : Ref)
| ExecCommand.

(** What [navigator.clipboard.writeText] does with its promise. *)
Inductive ClipboardWrite :=
| WriteResolves
| WriteRejects.

(** An intersection observer: its targets, each with the visibility the
    observer last reported for it ([None] before the first report). *)
Abbreviation Observer := (list (Ref * option bool)).

(** What the browser lets the page do with [localStorage].  Where
    storage is blocked (by a setting of the browser, or for an opaque
    origin) every read of [window.localStorage] throws.  Where it is
    allowed, a new item is stored if the store with the item in it
    [fits] the quota of the browser. *)
Inductive StorageAccess :=
| StorageBlocked
| StorageAllowed (fits : gmap jsstring jsstring → bool).

Record World := mkWorld {
  document : Document;
  pathname : jsstring;
  localStorage : gmap jsstring jsstring;
  storageAccess : StorageAccess;
  listeners : list (Ref * Handler);
  hasIntersectionObserver : bool;
  observers : list Observer;
  pageYOffset : Z;
  clipboard : option ClipboardWrite;
  execCommandCopy : Completion bool;
  log : list Effect
}.

Definition with_document (f : Document → Document) (w : World) : World :=
  mkWorld (f (document w)) (pathname w) (localStorage w) (storageAccess w) (listeners w)
          (hasIntersectionObserver w) (observers w) (pageYOffset w)
          (clipboard w) (execCommandCopy w) (log w).

Definition with_localStorage (f : gmap jsstring jsstring → gmap jsstring jsstring)
    (w : World) : World :=
  mkWorld (document w) (pathname w) (f (localStorage w)) (storageAccess w) (listeners w)
          (hasIntersectionObserver w) (observers w) (pageYOffset w)
          (clipboard w) (execCommandCopy w) (log w).

Definition with_listeners (f : list (Ref * Handler) → list (Ref * Handler))
    (w : World) : World :=
  mkWorld (document w) (pathname w) (localStorage w) (storageAccess w) (f (listeners w))
          (hasIntersectionObserver w) (observers w) (pageYOffset w)
          (clipboard w) (execCommandCopy w) (log w).

Definition with_observers (f : list Observer → list Observer) (w : World) : World :=
  mkWorld (document w) (pathname w) (localStorage w) (storageAccess w) (listeners w)
          (hasIntersectionObserver w) (f (observers w)) (pageYOffset w)
          (clipboard w) (execCommandCopy w) (log w).

Definition with_log (f : list Effect → list Effect) (w : World) : World :=
  mkWorld (document w) (pathname w) (localStorage w) (storageAccess w) (listeners w)
          (hasIntersectionObserver w) (observers w) (pageYOffset w)
          (clipboard w) (execCommandCopy w) (f (log w)).

(** Script code: it reads and changes the page state and ends normally or
    by throwing; what it changed before throwing stays changed. *)
Definition M (A : Type) : Type := World → Completion A * World.

Global Instance M_ret : MRet M := λ A a w, (Normal a, w).

Global Instance M_bind : MBind M := λ A B f m w,
  match m w with
  | (Normal a, w') => f a w'
  | (Abrupt e, w') => (Abrupt e, w')
  end.

Definition throw {A} (e : Value) : M A := λ w, (Abrupt e, w).
Definition gets {A} (f : World → A) : M A := λ w, (Normal (f w), w).
Definition modify (f : World → World) : M unit := λ w, (Normal (), f w).
Definition emit (x : Effect) : M unit := modify (with_log (λ l, l ++ [x])).

(** [list.forEach(f)] *)
Fixpoint forEach {A} (f : A → M unit) (l : list A) : M unit :=
  match l with
  | [] => mret ()
  | x :: rest => f x ;; forEach f rest
  end.

(** Member access on an element reference. *)
Definition getAttribute (r : Ref) (a : jsstring) : M (option jsstring) :=
  gets (λ w, e ← element_at (document w) r; attributes e !! a).

Definition classList_of (r : Ref) : M (list jsstring) :=
  gets (λ w, default [] (classList <$> element_at (document w) r)).

Definition update_element (r : Ref) (f : Element → Element) : M unit :=
  modify (with_document (update_at r f)).

Definition classList_add (r : Ref) (c : jsstring) : M unit :=
  update_element r (λ e, set_classList (add c (classList e)) e).

Definition classList_remove (r : Ref) (c : jsstring) : M unit :=
  update_element r (λ e, set_classList (remove c (classList e)) e).

Definition classList_toggle (r : Ref) (c : jsstring) : M unit :=
  update_element r (λ e, set_classList (toggle c (classList e)) e).

Definition classList_contains (r : Ref) (c : jsstring) : M bool :=
  l ← classList_of r; mret (contains c l).

Definition style_set (r : Ref) (p v : jsstring) : M unit :=
  update_element r (set_style p v) ;; emit (StyleWrite r p v).

Definition addEventListener (r : Ref) (h : Handler) : M unit :=
  modify (with_listeners (λ l, l ++ [(r, h)])).

(** ** Navigation (lines 12-33) *)

Definition currentPage (path : jsstring) : jsstring :=
  or_else (pop (split slash path)) (js "index.html").

Definition initializeNavigation : M unit :=
  path ← gets pathname;
  let currentPage := currentPage path in
  navLinks ← gets (λ w, querySelectorAll (ByClass (js "nav-link")) (document w));
  forEach (λ link,
    linkPage ← getAttribute link (js "href");
    if bool_decide (linkPage = Some currentPage)
    then classList_add link (js "active")
    else classList_remove link (js "active")) navLinks ;;
  mobileNavToggle ← gets (λ w, getElementById (js "mobile-nav-toggle") (document w));
  match mobileNavToggle with
  | Some t => addEventListener t MobileNavToggleClick
  | None => mret ()
  end.

(** The listener of lines 28-31; [navLinksContainer.classList] on [null]
    throws. *)
Definition mobileNavToggleClick : M unit :=
  navLinksContainer ← gets (λ w, querySelector (ByClass (js "nav-links")) (document w));
  match navLinksContainer with
  | Some c => classList_toggle c (js "mobile-active")
  | None => throw TypeError
  end.

(** ** Theme (lines 60-84) *)

Definition moon : jsstring := [0xD83C; 0xDF19]%N.
Definition sun : jsstring := [0x2600; 0xFE0F]%N.

Definition updateThemeIcon (isLight : bool) : M unit :=
  themeToggle ← gets (λ w, getElementById (js "theme-toggle") (document w));
  match themeToggle with
  | Some t => update_element t (set_textContent (if isLight then moon else sun))
  | None => mret ()
  end.

(** [localStorage.setItem(k, v)] and [localStorage.getItem(k)].  Both
    read [window.localStorage] first.  [setItem] does nothing when the
    key already holds the value, and throws when the new item cannot be
    stored. *)
Definition setItem (k v : jsstring) : M unit :=
  access ← gets storageAccess;
  match access with
  | StorageBlocked => throw SecurityError
  | StorageAllowed fits =>
      store ← gets localStorage;
      if bool_decide (store !! k = Some v) then mret ()
      else if fits (<[k := v]> store) then modify (with_localStorage (<[k := v]>))
      else throw QuotaExceededError
  end.

Definition getItem (k : jsstring) : M (option jsstring) :=
  access ← gets storageAccess;
  match access with
  | StorageBlocked => throw SecurityError
  | StorageAllowed _ => gets (λ w, localStorage w !! k)
  end.

Definition themeToggleClick : M unit :=
  classList_toggle RBody (js "light-theme") ;;
  isLight ← classList_contains RBody (js "light-theme");
  setItem (js "theme") (if isLight then js "light" else js "dark") ;;
  updateThemeIcon isLight.

Definition initializeTheme : M unit :=
  themeToggle ← gets (λ w, getElementById (js "theme-toggle") (document w));
  match themeToggle with
  | Some t =>
      addEventListener t ThemeToggleClick ;;
      savedTheme ← getItem (js "theme");
      if bool_decide (savedTheme = Some (js "light"))
      then classList_add RBody (js "light-theme") ;; updateThemeIcon true
      else mret ()
  | None => mret ()
  end.

Definition run_handler (h : Handler) : M unit :=
  match h with
  | MobileNavToggleClick => mobileNavToggleClick
  | ThemeToggleClick => themeToggleClick
  end.

(** A click on an element runs the listeners registered on it, in the
    order they were added; a listener that throws does not stop the ones
    after it.  The thrown values are returned as the browser reports
    them. *)
Fixpoint dispatch (hs : list Handler) (w : World) : list Value * World :=
  match hs with
  | [] => ([], w)
  | h :: rest =>
      match run_handler h w with
      | (Normal _, w') => dispatch rest w'
      | (Abrupt e, w') => let '(es, w'') := dispatch rest w' in (e :: es, w'')
      end
  end.

Definition listeners_on (r : Ref) (w : World) : list Handler :=
  snd <$> filter (λ p, p.1 = r) (listeners w).

Definition click (r : Ref) (w : World) : list Value * World :=
  dispatch (listeners_on r w) w.

(** ** Scroll animations (lines 36-57) *)


Definition observe (k : nat) (r : Ref) : M unit :=
  modify (with_observers
    (alter (λ o, if bool_decide (r ∈ o.*1) then o else o ++ [(r, None)]) k)).

Definition unobserve (k : nat) (r : Ref) : M unit :=
  modify (with_observers (alter (filter (λ t, t.1 ≠ r)) k)).

(** [new IntersectionObserver(callback, ...)]: the new observer's
    position among the page's observers. *)
Definition newObserver : M nat :=
  k ← gets (λ w, length (observers w));
  modify (with_observers (λ os, os ++ [[]])) ;;
  mret k.

Definition animationSuffix : jsstring := js " 0.6s ease forwards".

(** The observer callback of lines 41-50, for observer [k]; an entry is
    its target and its [isIntersecting]. *)
Definition observerCallback (k : nat) (entries : list (Ref * bool)) : M unit :=
  forEach (λ entry : Ref * bool,
    if entry.2 then
      let element := entry.1 in
      name ← getAttribute element (js "data-animate");
      let animation := or_else name (js "fadeInUp") in
      style_set element (js "animation") (animation ++ animationSuffix) ;;
      unobserve k element
    else mret ()) entries.

Definition initializeAnimations : M unit :=
  animatedElements ←
    gets (λ w, querySelectorAll (ByAttribute (js "data-animate")) (document w));
  available ← gets hasIntersectionObserver;
  if bool_decide (0 < length animatedElements)%nat && available then
    observer ← newObserver;
    forEach (λ element,
      style_set element (js "opacity") (js "0") ;;
      observe observer element) animatedElements
  else mret ().

(** The browser's side of an intersection observer.  In one round the
    browser works out which targets are visible enough ([visible], the
    0.1 threshold applied), queues an entry for every target of the
    observer whose visibility differs from the last one reported (every
    target, the first time), and calls the observer's callback with the
    entries if there are any. *)
Definition entries_of (visible : Ref → bool) (o : Observer) : list (Ref * bool) :=
  omap (λ t, if bool_decide (t.2 = Some (visible t.1)) then None
             else Some (t.1, visible t.1)) o.

Definition reported (visible : Ref → bool) (o : Observer) : Observer :=
  (λ t, (t.1, Some (visible t.1))) <$> o.

Definition notify (visible : Ref → bool) (k : nat) : M unit :=
  o ← gets (λ w, default [] (observers w !! k));
  modify (with_observers (alter (reported visible) k)) ;;
  let entries := entries_of visible o in
  match entries with
  | [] => mret () : M unit
  | _ :: _ => observerCallback k entries
  end.

Definition intersection_round (visible : Ref → bool) : M unit :=
  n ← gets (λ w, length (observers w));
  forEach (notify visible) (seq 0 n).

(** A page's life after [initializeAnimations]: one round per item. *)
Definition rounds (vs : list (Ref → bool)) : M unit :=
  forEach intersection_round vs.

(** ** Page start (lines 4-9): the [DOMContentLoaded] listener *)


(** ** Smooth scrolling (lines 87-99)

    The target is any string.  What [document.querySelector] makes of it
    is the selector engine's business: [select] gives, for a string and a
    document, the [SyntaxError] thrown for a string that is no selector,
    or else the first element that matches, if there is one. *)
Section SmoothScrolling.
Variable select : jsstring → Document → Completion (option Ref).

Definition document_querySelector (target : jsstring) : M (option Ref) :=
  λ w, (select target (document w), w).

Definition smoothScrollTo (target : jsstring) : M unit :=
  element ← document_querySelector target;
  match element with
  | Some r =>
      let offset := 80 in
      elementPosition ← gets (λ w, default 0 (rectTop <$> element_at (document w) r));
      y ← gets pageYOffset;
      let offsetPosition := elementPosition + y - offset in
      emit (ScrollTo offsetPosition)
  | None => mret ()
  end.
End SmoothScrolling.

(** ** Clipboard (lines 129-147) *)

Inductive Promise (A : Type) :=
| Fulfilled (a : A)
| Rejected (e : Value).
Arguments Fulfilled {A} a.
Arguments Rejected {A} e.

(** The call together with the reactions of its promise chain: the result
    is how the returned promise settles, the state is the page after the
    reactions have run.  Where [navigator.clipboard] is [undefined] the
    member access throws before any promise exists. *)
Definition body_appendChild (e : Element) : M Ref := λ w,
  let '(d, r) := appendChild e (document w) in
  (Normal r, with_log (λ l, l ++ [AppendedChild r]) (with_document (λ _, d) w)).

Definition body_removeChild (r : Ref) : M unit :=
  modify (with_document (removeChild r)) ;; emit (RemovedChild r).

Definition copyToClipboard (text : jsstring) : M (Promise bool) :=
  api ← gets clipboard;
  match api with
  | None => throw TypeError
  | Some WriteResolves => mret (Fulfilled true)
  | Some WriteRejects =>
      emit CreatedElement ;;
      let textArea := set_value text createElement in
      textArea ← body_appendChild textArea;
      emit (Selected textArea) ;;
      copied ← gets execCommandCopy;
      emit ExecCommand ;;
      match copied with
      | Normal _ => body_removeChild textArea ;; mret (Fulfilled true)
      | Abrupt err => body_removeChild textArea ;; mret (Fulfilled false)
      end
  end.

(** ** Escaping (lines 160-164) *)

Definition amp : N := 38.
Definition lt : N := 60.
Definition gt : N := 62.
Definition nbsp : N := 160.

(** The two quote units. *)
Definition quot : N := 34.
Definition apos : N := 39.

(** The browser's serialisation of a text node, as [innerHTML] applies it
    to element content: [&], the no-break space, [<] and [>] become
    character references, every other unit stays. *)
Definition escape_unit (c : N) : jsstring :=
  if N.eqb c amp then js "&amp;"
  else if N.eqb c nbsp then js "&nbsp;"
  else if N.eqb c lt then js "&lt;"
  else if N.eqb c gt then js "&gt;"
  else [c].

Definition escape (s : jsstring) : jsstring := s ≫= escape_unit.

(** [innerHTML] of an element whose content is the text put there by the
    [textContent] setter. *)
Definition innerHTML (e : Element) : jsstring := escape (textContent e).

Definition sanitizeHTML (str : jsstring) : jsstring :=
  let div := createElement in
  let div := set_textContent str div in
  innerHTML div.






(** ** Timers

    The timer queue of the event loop, with the variables a wrapper
    closes over ([V]) and the record of what was invoked.  A timer holds
    what its callback needs ([C]).  The clock counts whole milliseconds,
    and a timer runs when the clock reaches its deadline. *)

Record Timer (C : Type) := mkTimer {
  timer_id : nat;
  deadline : Z;
  callback : C
}.
Arguments mkTimer {C} _ _ _.
Arguments timer_id {C} _.
Arguments deadline {C} _.
Arguments callback {C} _.

Record Loop (C V : Type) := mkLoop {
  now : Z;
  nextTimerId : nat;
  timers : list (Timer C);
  closure : V;
  invocations : list (Z * list Value);
  uncaught : list Value
}.
Arguments mkLoop {C V} _ _ _ _ _ _.
Arguments now {C V} _.
Arguments nextTimerId {C V} _.
Arguments timers {C V} _.
Arguments closure {C V} _.
Arguments invocations {C V} _.
Arguments uncaught {C V} _.

(** [setTimeout] takes its delay as a signed 32-bit integer: a delay of
    2^31 or more wraps around, as the conversion of a number to [long]
    has it.  A negative delay, wrapped or not, counts as zero. *)
Definition to_long (z : Z) : Z := (z + 2147483648) mod 4294967296 - 2147483648.

Definition timer_delay (delay : Z) : Z := Z.max 0 (to_long delay).

Section Timers.
Context {C V : Type}.

Definition start (t : Z) (v : V) : Loop C V := mkLoop t 0 [] v [] [].

(** [setTimeout(cb, delay)] *)
Definition setTimeout (cb : C) (delay : Z) (l : Loop C V) : nat * Loop C V :=
  (nextTimerId l,
   mkLoop (now l) (S (nextTimerId l))
          (timers l ++ [mkTimer (nextTimerId l) (now l + timer_delay delay) cb])
          (closure l) (invocations l) (uncaught l)).

(** [clearTimeout(handle)]: nothing happens for [undefined] or a handle
    no longer in the queue. *)
Definition clearTimeout (handle : option nat) (l : Loop C V) : Loop C V :=
  match handle with
  | None => l
  | Some i =>
      mkLoop (now l) (nextTimerId l) (filter (λ t, timer_id t ≠ i) (timers l))
             (closure l) (invocations l) (uncaught l)
  end.

Definition set_closure (v : V) (l : Loop C V) : Loop C V :=
  mkLoop (now l) (nextTimerId l) (timers l) v (invocations l) (uncaught l).

Definition set_now (t : Z) (l : Loop C V) : Loop C V :=
  mkLoop t (nextTimerId l) (timers l) (closure l) (invocations l) (uncaught l).

Definition report (e : Value) (l : Loop C V) : Loop C V :=
  mkLoop (now l) (nextTimerId l) (timers l) (closure l) (invocations l)
         (uncaught l ++ [e]).

(** A call of a function at the loop's current time, recorded. *)
Definition record (args : list Value) (l : Loop C V) : Loop C V :=
  mkLoop (now l) (nextTimerId l) (timers l) (closure l)
         (invocations l ++ [(now l, args)]) (uncaught l).

(** The timer to run next: the earliest deadline, the older timer on a
    tie. *)
Fixpoint earliest (ts : list (Timer C)) : option (Timer C) :=
  match ts with
  | [] => None
  | t :: rest =>
      match earliest rest with
      | Some u => if deadline u <? deadline t then Some u else Some t
      | None => Some t
      end
  end.

Definition next_due (T : Z) (ts : list (Timer C)) : option (Timer C) :=
  earliest (filter (λ t, deadline t ≤ T) ts).

Variable fire : C → Loop C V → Loop C V.

(** Run the timers due by [T], one at a time, each at its deadline, or
    at once if its deadline has passed. *)
Fixpoint run_due (fuel : nat) (T : Z) (l : Loop C V) : Loop C V :=
  match fuel with
  | O => l
  | S fuel' =>
      match next_due T (timers l) with
      | None => l
      | Some t =>
          let l1 := clearTimeout (Some (timer_id t)) (set_now (Z.max (now l) (deadline t)) l) in
          run_due fuel' T (fire (callback t) l1)
      end
  end.

(** Let the clock reach [T], the timers due by [horizon] having run.
    The callbacks of this script start no timers, so one step per queued
    timer is enough. *)
Definition run_until (horizon T : Z) (l : Loop C V) : Loop C V :=
  let l' := run_due (length (timers l)) horizon l in
  set_now (Z.max (now l') T) l'.

(** The clock running on to [T]: every timer due by then has run. *)
Definition advance (T : Z) (l : Loop C V) : Loop C V := run_until T T l.

(** A script task that starts when the clock reads [T].  The timers due
    before [T] have run.  For a timer due at [T] itself the order is the
    event loop's: it has run if the loop took the timer's task first
    ([timers_first]), and is still queued if it took the script's. *)
Definition arrive (timers_first : bool) (T : Z) (l : Loop C V) : Loop C V :=
  run_until (if timers_first then T else T - 1) T l.
End Timers.

(** The loop as a debounced and as a throttled wrapper see it: a timer
    of the first holds the arguments of the call that made it, the
    variable is [timeout]; for the second the variable is [inThrottle]. *)
Abbreviation Debounced := (Loop (list Value) (option nat)).
Abbreviation Throttled := (Loop unit bool).

(** ** Calling functions

    [apply_code] is what the body of each function does with its
    arguments. *)
Section Calls.
Variable apply_code : nat → list Value → Completion Value.

Definition is_function (f : Value) : bool :=
  match f with VFunction _ _ => true | _ => false end.

(** [f(...args)] *)
Definition call (f : Value) (args : list Value) : Completion Value :=
  match f with
  | VFunction _ code => apply_code code args
  | _ => Abrupt TypeError
  end.

(** [f.name] *)
Definition name_of (f : Value) : Completion Value :=
  match f with
  | VFunction name _ => Normal (VString name)
  | VObject name => Normal name
  | VUndefined | VNull => Abrupt TypeError
  | VBoolean _ | VNumber _ | VString _ => Normal VUndefined
  end.

(** A call of [func] at the loop's current time, recorded. *)
Definition invoke {C V} (func : Value) (args : list Value) (l : Loop C V)
    : Completion Value * Loop C V :=
  (call func args, if is_function func then record args l else l).

(** *** debounce (lines 102-112)

    [debounce(func, wait)], called at time [created], declares [timeout],
    leaves it [undefined] and returns [executedFunction]; a timer holds
    the [args] its [later] was made with.  [func] runs in the timer's
    task, when [later] is done with the wrapper: a call of the wrapper
    that [func] makes itself is one more call of the series, at the time
    the timer ran. *)

Definition debounce (created : Z) : Debounced := start created None.

Definition later (func : Value) (args : list Value) (l : Debounced) : Debounced :=
  let l := clearTimeout (closure l) l in
  match invoke func args l with
  | (Normal _, l') => l'
  | (Abrupt e, l') => report e l'
  end.

Definition executedFunction (wait : Z) (args : list Value) (l : Debounced)
    : Value * Debounced :=
  let l := clearTimeout (closure l) l in
  let '(handle, l) := setTimeout args wait l in
  (VUndefined, set_closure (Some handle) l).

(** A script task at time [c.1] calling the wrapper with [c.2]. *)
Definition debounced_at (func : Value) (wait : Z) (timers_first : bool)
    (c : Z * list Value) (l : Debounced) : Value * Debounced :=
  executedFunction wait c.2 (arrive (later func) timers_first c.1 l).

(** A series of wrapper calls, and then the clock running on to [T].
    [ties] says, call by call, whether the timers due at the very time
    of the call ran before it; where the list has run out they did. *)
Fixpoint debounce_calls (func : Value) (wait : Z) (ties : list bool)
    (cs : list (Z * list Value)) (l : Debounced) : Debounced :=
  match cs with
  | [] => l
  | c :: rest =>
      debounce_calls func wait (tail ties) rest
        (debounced_at func wait (default true (head ties)) c l).2
  end.

Definition debounce_run (func : Value) (wait : Z) (ties : list bool)
    (cs : list (Z * list Value)) (T : Z) (l : Debounced) : Debounced :=
  advance (later func) T (debounce_calls func wait ties cs l).

(** *** withErrorHandling (lines 181-193) *)

(** The default of the parameter [fallback = null] applies when the
    argument is left out or [undefined]. *)
Definition fallback_parameter (arg : Value) : Value :=
  match arg with
  | VUndefined => VNull
  | v => v
  end.

Definition lift {A} (c : Completion A) : M A := λ w, (c, w).

Definition withErrorHandling (fn : Value) (fallback : Value) (args : list Value)
    : M Value :=
  let fallback := fallback_parameter fallback in
  match call fn args with
  | Normal result => mret result
  | Abrupt error =>
      name ← lift (name_of fn);
      emit (ConsoleError name error) ;;
      if is_function fallback then lift (call fallback args)
      else mret fallback
  end.
End Calls.

(** *** throttle (lines 115-126)

    [throttle(func, limit)], called at time [created], declares
    [inThrottle], leaves it [undefined] (falsy) and returns the wrapper
    [throttled].  [func] runs inside the wrapper, before [inThrottle] is
    set, so what its body does to the wrapper matters: [run_code] is what
    the body of each function does with its arguments and the state it
    finds, which it may change by calling the wrapper or by starting and
    clearing timers. *)
Section ThrottledCalls.
Variable run_code : nat → list Value → Throttled → Completion Value * Throttled.

(** [func.apply(context, args)], recorded. *)
Definition apply_function (func : Value) (args : list Value) (l : Throttled)
    : Completion Value * Throttled :=
  match func with
  | VFunction _ code => run_code code args (record args l)
  | _ => (Abrupt TypeError, l)
  end.

Definition throttle (created : Z) : Throttled := start created false.

Definition throttled (func : Value) (limit : Z) (args : list Value) (l : Throttled)
    : Completion Value * Throttled :=
  if negb (closure l) then
    match apply_function func args l with
    | (Normal _, l) =>
        let l := set_closure true l in
        (Normal VUndefined, (setTimeout () limit l).2)
    | (Abrupt e, l) => (Abrupt e, l)
    end
  else (Normal VUndefined, l).

Definition release (_ : unit) (l : Throttled) : Throttled := set_closure false l.

(** A script task at time [c.1] calling the wrapper with [c.2]. *)
Definition throttled_at (func : Value) (limit : Z) (timers_first : bool)
    (c : Z * list Value) (l : Throttled) : Completion Value * Throttled :=
  throttled func limit c.2 (arrive release timers_first c.1 l).

(** A series of wrapper calls, and then the clock running on to [T];
    [ties] as for [debounce_calls]. *)
Fixpoint throttle_calls (func : Value) (limit : Z) (ties : list bool)
    (cs : list (Z * list Value)) (l : Throttled) : Throttled :=
  match cs with
  | [] => l
  | c :: rest =>
      throttle_calls func limit (tail ties) rest
        (throttled_at func limit (default true (head ties)) c l).2
  end.

Definition throttle_run (func : Value) (limit : Z) (ties : list bool)
    (cs : list (Z * list Value)) (T : Z) (l : Throttled) : Throttled :=
  advance release T (throttle_calls func limit ties cs l).
End ThrottledCalls.

(** A function that leaves the wrapper and the timers alone: what its
    body does is a matter of its arguments only. *)
Definition detached (apply_code : nat → list Value → Completion Value)
    : nat → list Value → Throttled → Completion Value * Throttled :=
  λ code args l, (apply_code code args, l).

(** ** Performance measurement (lines 167-178)

    The performance timeline is the list of its entries in the order they
    were made.  Time stamps are numbers of the page's clock; what the
    script needs of them is the difference of two ([minus]) and their
    order ([leb]), which stay parameters.  A callback is any code: it
    may take time, add entries, log and throw. *)

Inductive EntryType :=
| MarkEntry
| MeasureEntry
| OtherEntry.

Global Instance EntryType_eq_dec : EqDecision EntryType.
Proof. solve_decision. Defined.

Record PerformanceEntry (number : Type) := mkEntry {
  entry_name : jsstring;
  entryType : EntryType;
  startTime : number;
  duration : number
}.
Arguments mkEntry {number} _ _ _ _.
Arguments entry_name {number} _.
Arguments entryType {number} _.
Arguments startTime {number} _.
Arguments duration {number} _.

(** [performance_mark]: whether [performance] and [performance.mark]
    exist.  [console] holds, for each line logged by line 174, the name
    and the duration the line is made of (its text is
    [name took duration.toFixed(2) ms]). *)
Record Timing (number : Type) := mkTiming {
  performance_mark : bool;
  clock : number;
  timeline : list (PerformanceEntry number);
  console : list (jsstring * number)
}.
Arguments mkTiming {number} _ _ _ _.
Arguments performance_mark {number} _.
Arguments clock {number} _.
Arguments timeline {number} _.
Arguments console {number} _.

Section Performance.
Context {number : Type}.
Variables (zero : number) (minus : number → number → number)
  (leb : number → number → bool).

Definition add_entry (x : PerformanceEntry number) (p : Timing number) : Timing number :=
  mkTiming (performance_mark p) (clock p) (timeline p ++ [x]) (console p).

Definition console_log (n : jsstring) (d : number) (p : Timing number) : Timing number :=
  mkTiming (performance_mark p) (clock p) (timeline p) (console p ++ [(n, d)]).

(** [performance.mark(n)] *)
Definition mark (n : jsstring) (p : Timing number) : Timing number :=
  add_entry (mkEntry n MarkEntry (clock p) zero) p.

(** The time of the most recent mark of a name. *)
Definition most_recent_mark (n : jsstring) (entries : list (PerformanceEntry number))
    : option number :=
  startTime <$> last (filter (λ x, entryType x = MarkEntry ∧ entry_name x = n) entries).

(** [performance.measure(n, startMark, endMark)]: a [SyntaxError] when
    a mark is missing. *)
Definition measure (n startMark endMark : jsstring) (p : Timing number)
    : Completion unit * Timing number :=
  match most_recent_mark startMark (timeline p), most_recent_mark endMark (timeline p) with
  | Some a, Some b => (Normal (), add_entry (mkEntry n MeasureEntry a (minus b a)) p)
  | _, _ => (Abrupt SyntaxError, p)
  end.

(** [performance.getEntriesByName(n)]: the entries of that name, of any
    type, by start time; entries with the same start time stay in the
    order they were made. *)
Fixpoint insert_entry (x : PerformanceEntry number) (l : list (PerformanceEntry number))
    : list (PerformanceEntry number) :=
  match l with
  | [] => [x]
  | y :: rest =>
      if leb (startTime x) (startTime y) then x :: y :: rest
      else y :: insert_entry x rest
  end.

Definition chronological (l : list (PerformanceEntry number))
    : list (PerformanceEntry number) :=
  foldr insert_entry [] l.

Definition getEntriesByName (n : jsstring) (p : Timing number)
    : list (PerformanceEntry number) :=
  chronological (filter (λ x, entry_name x = n) (timeline p)).

Definition measurePerformance (name : jsstring)
    (callback : Timing number → Completion Value * Timing number) (p : Timing number)
    : Completion Value * Timing number :=
  if performance_mark p then
    let p := mark (name ++ js "-start") p in
    match callback p with
    | (Abrupt e, p) => (Abrupt e, p)
    | (Normal result, p) =>
        let p := mark (name ++ js "-end") p in
        match measure name (name ++ js "-start") (name ++ js "-end") p with
        | (Abrupt e, p) => (Abrupt e, p)
        | (Normal _, p) =>
            let measures := getEntriesByName name p in
            match measures with
            | m :: _ => (Normal result, console_log name (duration m) p)
            | [] => (Abrupt TypeError, p)
            end
        end
    end
  else callback p.
End Performance.

(** ** Statements used by the theorems *)

(** The persisted theme and the body's marker class agree. *)
Definition theme_agrees (w : World) : Prop :=
  contains (js "light-theme") (classList (body (document w))) = true
  ↔ localStorage w !! js "theme" = Some (js "light").

(** Whether [localStorage.setItem(k, v)] goes through, and what it throws
    when it does not. *)
Definition stores (k v : jsstring) (w : World) : bool :=
  match storageAccess w with
  | StorageBlocked => false
  | StorageAllowed fits =>
      bool_decide (localStorage w !! k = Some v) || fits (<[k := v]> (localStorage w))
  end.

Definition storage_error (w : World) : Value :=
  match storageAccess w with
  | StorageBlocked => SecurityError
  | StorageAllowed _ => QuotaExceededError
  end.

(** The storage can be read, and has room for either value of the
    theme. *)
Definition theme_storable (w : World) : bool :=
  match storageAccess w with
  | StorageBlocked => false
  | StorageAllowed fits =>
      fits (<[js "theme" := js "light"]> (localStorage w))
      && fits (<[js "theme" := js "dark"]> (localStorage w))
  end.

(** A series of clicks on elements of the page. *)
Definition clicks (rs : list Ref) (w : World) : World :=
  foldl (λ w r, (click r w).2) w rs.

(** Call times that never go back, starting from [prev]. *)
Fixpoint ascending (prev : Z) (cs : list (Z * list Value)) : Prop :=
  match cs with
  | [] => True
  | c :: rest => prev ≤ c.1 ∧ ascending c.1 rest
  end.



(** Whether a timer with this deadline has run when a script task that
    arrives at [t] starts. *)
Definition due_before (timers_first : bool) (deadline t : Z) : bool :=
  bool_decide (deadline ≤ if timers_first then t else t - 1).




(** The texts written to [style.animation] of an element, oldest first. *)
Definition animation_writes (r : Ref) (l : list Effect) : list jsstring :=
  omap (λ x, match x with
             | StyleWrite r' p t =>
                 if bool_decide (r' = r ∧ p = js "animation") then Some t else None
             | _ => None
             end) l.

(** The animation an element asks for. *)
Definition requested_animation (d : Document) (r : Ref) : jsstring :=
  or_else (e ← element_at d r; attributes e !! js "data-animate") (js "fadeInUp")
  ++ animationSuffix.

(** What the loop of lines 16-23 does to one link. *)
Definition marked (page : jsstring) (e : Element) : Element :=
  set_classList
    (if bool_decide (attributes e !! js "href" = Some page)
     then add (js "active") (classList e)
     else remove (js "active") (classList e)) e.

(** What the observers hold about one element, and the animation name
    the element carries. *)
Definition targets_of (r : Ref) (w : World) : list Observer :=
  filter (λ t, t.1 = r) <$> observers w.

Definition name_at (r : Ref) (w : World) : option jsstring :=
  e ← element_at (document w) r; attributes e !! js "data-animate".

Definition opacity_at (r : Ref) (w : World) : option jsstring :=
  e ← element_at (document w) r; style e !! js "opacity".

(** An element waiting for its first visible round, and one that has had
    it: [written] is what has been written to its [style.animation]. *)
Definition waiting (r : Ref) (written : list jsstring) (w : World) : Prop :=
  ∃ prev, targets_of r w = [[(r, prev)]] ∧ prev ≠ Some true ∧
          animation_writes r (log w) = written.

Definition animated (r : Ref) (written : list jsstring) (w : World) : Prop :=
  targets_of r w = [[]] ∧ animation_writes r (log w) = written.

(** A page with a mobile-nav toggle and no [.nav-links] container. *)
Definition page_without_nav_links : World :=
  mkWorld
    (mkDocument createElement
       [mkElement {[ js "id" := js "mobile-nav-toggle" ]} [] ∅ [] [] 0])
    (js "/index.html") ∅ (StorageAllowed (λ _, true)) [] true [] 0 (Some WriteResolves) (Normal true) [].

(** A page without a theme toggle, visited after the light theme was
    chosen on another page. *)
Definition page_without_theme_toggle : World :=
  mkWorld (mkDocument createElement [])
    (js "/about.html") {[ js "theme" := js "light" ]} (StorageAllowed (λ _, true)) [] true [] 0
    (Some WriteResolves) (Normal true) [].

(** A page with two elements to animate, the second without a name, and
    rounds in which the first element is hidden, seen, hidden and seen
    again. *)
Definition page_with_animations : World :=
  mkWorld
    (mkDocument createElement
       [mkElement {[ js "data-animate" := js "slideIn" ]} [] ∅ [] [] 0;
        mkElement {[ js "data-animate" := js "" ]} [] ∅ [] [] 0])
    (js "/") ∅ (StorageAllowed (λ _, true)) [] true [] 0 (Some WriteResolves) (Normal true) [].

Definition sample_rounds : list (Ref → bool) :=
  [λ _, false; λ r, bool_decide (r = RNode 0); λ _, false; λ _, true].

(** A page with two navigation links, the second one current. *)
Definition page_with_navigation : World :=
  mkWorld
    (mkDocument createElement
       [mkElement {[ js "href" := js "index.html" ]} [js "nav-link"; js "active"] ∅ [] [] 0;
        mkElement {[ js "href" := js "about.html" ]} [js "nav-link"] ∅ [] [] 0])
    (js "/site/about.html") ∅ (StorageAllowed (λ _, true)) [] true [] 0 (Some WriteResolves) (Normal true) [].

(** A page with a theme toggle, first visit. *)
Definition page_with_theme_toggle : World :=
  mkWorld
    (mkDocument createElement
       [mkElement {[ js "id" := js "theme-toggle" ]} [] ∅ [] [] 0])
    (js "/") ∅ (StorageAllowed (λ _, true)) [] true [] 0 (Some WriteResolves) (Normal true) [].

(** The same page where the browser stores nothing (no quota left), and
    where it blocks storage. *)
Definition page_with_full_storage : World :=
  mkWorld
    (mkDocument createElement
       [mkElement {[ js "id" := js "theme-toggle" ]} [] ∅ [] [] 0])
    (js "/") ∅ (StorageAllowed (λ _, false)) [] true [] 0 (Some WriteResolves)
    (Normal true) [].

Definition page_with_blocked_storage : World :=
  mkWorld
    (mkDocument createElement
       [mkElement {[ js "id" := js "theme-toggle" ]} [] ∅ [] [] 0])
    (js "/") ∅ StorageBlocked [] true [] 0 (Some WriteResolves) (Normal true) [].

(** A selector engine that knows one selector, [.nav-link], takes the
    empty string for no selector and finds nothing for any other
    string. *)
Definition sample_select (target : jsstring) (d : Document) : Completion (option Ref) :=
  if bool_decide (target = js ".nav-link")
  then Normal (querySelector (ByClass (js "nav-link")) d)
  else if bool_decide (target = []) then Abrupt SyntaxError
  else Normal None.

(** Two function bodies: code 0 returns the number of its arguments,
    every other code throws. *)
Definition sample_code (code : nat) (args : list Value) : Completion Value :=
  match code with
  | O => Normal (VNumber (Z.of_nat (length args)))
  | S _ => Abrupt (VString (js "boom"))
  end.

(** The units the escaping rewrites. *)
Definition special (c : N) : Prop := c = amp ∨ c = nbsp ∨ c = lt ∨ c = gt.

(** The next page visited after the light theme was chosen: it has the
    toggle, and its markup has no theme class. *)
Definition next_page_with_theme_toggle : World :=
  mkWorld
    (mkDocument createElement
       [mkElement ∅ [js "nav-links"] ∅ [] [] 0;
        mkElement {[ js "id" := js "theme-toggle" ]} [] ∅ [] [] 0])
    (js "/about.html") {[ js "theme" := js "light" ]} (StorageAllowed (λ _, true)) [] true [] 0
    (Some WriteResolves) (Normal true) [].



(** The values thrown by a series of invocations. *)
Definition raised (apply_code : nat → list Value → Completion Value) (func : Value)
    (done : list (Z * list Value)) : list Value :=
  omap (λ c, match call apply_code func c.2 with
             | Abrupt e => Some e
             | Normal _ => None
             end) done.

(** A debounced wrapper waiting to fire after earlier invocations. *)
Definition armed_after (delay t : Z) (args : list Value) (done : list (Z * list Value))
    (errors : list Value) (l : Debounced) : Prop :=
  ∃ id, now l = t ∧ timers l = [mkTimer id (t + delay) args] ∧
        closure l = Some id ∧ invocations l = done ∧ uncaught l = errors.

(** A debounced wrapper has no timer, or the one its [timeout] names. *)
Definition tidy (l : Debounced) : Prop :=
  timers l = [] ∨ ∃ t, timers l = [t] ∧ closure l = Some (timer_id t).


(** A function that returns at once, and the function [f] of
    [[
      const wrapper = throttle(f, limit);
      function f(n) { if (n === 1) wrapper(2); }
    ]]
    Called with 1, [f] calls the wrapper with 2, in which it runs again
    and returns at once. *)
Definition quiet_code (code : nat) (args : list Value) (l : Throttled)
    : Completion Value * Throttled :=
  (Normal VUndefined, l).

Definition reentrant_code (limit : Z) (code : nat) (args : list Value) (l : Throttled)
    : Completion Value * Throttled :=
  match args with
  | [VNumber 1] =>
      match throttled quiet_code (VFunction (js "f") code) limit [VNumber 2] l with
      | (Normal _, l) => (Normal VUndefined, l)
      | (Abrupt e, l) => (Abrupt e, l)
      end
  | _ => (Normal VUndefined, l)
  end.

(** An element no observer watches, with what it is. *)
Definition unwatched (r : Ref) (e : option Element) (w : World) : Prop :=
  element_at (document w) r = e ∧ Forall (λ o : Observer, r ∉ o.*1) (observers w).



(** A clock in whole milliseconds, a timeline with nothing on it, and a
    callback that takes [took] milliseconds and returns [7]. *)
Definition empty_timing : Timing Z := mkTiming true 1000 [] [].

Definition takes (took : Z) (p : Timing Z) : Completion Value * Timing Z :=
  (Normal (VNumber 7),
   mkTiming (performance_mark p) (clock p + took) (timeline p) (console p)).

(** * Theorems *)

(** ** Escaping *)

Lemma escape_cons (c : N) (s : jsstring) :
  escape (c :: s) = escape_unit c ++ escape s.
Proof. reflexivity. Qed.

Lemma escape_unit_cases (c : N) :
  (c = amp ∧ escape_unit c = js "&amp;") ∨
  (c = nbsp ∧ escape_unit c = js "&nbsp;") ∨
  (c = lt ∧ escape_unit c = js "&lt;") ∨
  (c = gt ∧ escape_unit c = js "&gt;") ∨
  (c ≠ amp ∧ c ≠ nbsp ∧ c ≠ lt ∧ c ≠ gt ∧ escape_unit c = [c]).
Proof.
  unfold escape_unit.
  destruct (N.eqb_spec c amp) as [->|?]; [by left|].
  destruct (N.eqb_spec c nbsp) as [->|?]; [by right; left|].
  destruct (N.eqb_spec c lt) as [->|?]; [by right; right; left|].
  destruct (N.eqb_spec c gt) as [->|?]; [by right; right; right; left|].
  by right; right; right; right.
Qed.











(** ** Class lists and the document *)

Lemma contains_true (c : jsstring) (l : list jsstring) :
  contains c l = true ↔ c ∈ l.
Proof. unfold contains. by rewrite bool_decide_eq_true. Qed.

Lemma contains_false (c : jsstring) (l : list jsstring) :
  contains c l = false ↔ c ∉ l.
Proof. unfold contains. by rewrite bool_decide_eq_false. Qed.

Lemma elem_of_add (c d : jsstring) (l : list jsstring) :
  d ∈ add c l ↔ d = c ∨ d ∈ l.
Proof.
  unfold add. destruct (contains c l) eqn:E.
  - apply contains_true in E. intuition (subst; auto).
  - rewrite elem_of_app, list_elem_of_singleton. tauto.
Qed.

Lemma elem_of_remove (c d : jsstring) (l : list jsstring) :
  d ∈ remove c l ↔ d ≠ c ∧ d ∈ l.
Proof. unfold remove. by rewrite list_elem_of_filter. Qed.

Lemma elem_of_toggle_ne (c d : jsstring) (l : list jsstring) :
  d ≠ c → d ∈ toggle c l ↔ d ∈ l.
Proof.
  intros ?. unfold toggle. destruct (contains c l).
  - rewrite elem_of_remove. tauto.
  - rewrite elem_of_add. tauto.
Qed.

Lemma elem_of_toggle_eq (c : jsstring) (l : list jsstring) :
  c ∈ toggle c l ↔ c ∉ l.
Proof.
  unfold toggle. destruct (contains c l) eqn:E.
  - apply contains_true in E. rewrite elem_of_remove. tauto.
  - apply contains_false in E. rewrite elem_of_add. tauto.
Qed.

Lemma element_at_update_at (d : Document) (r l : Ref) (f : Element → Element) :
  element_at (update_at l f d) r
  = if decide (r = l) then f <$> element_at d r else element_at d r.
Proof.
  destruct (decide (r = l)) as [->|Hne].
  - destruct l; simpl; [done | apply list_lookup_alter_eq].
  - destruct l as [|i], r as [|j]; simpl; try done.
    apply list_lookup_alter_ne. congruence.
Qed.

Lemma update_at_ext (d : Document) (r : Ref) (f g : Element → Element) :
  (∀ e, element_at d r = Some e → f e = g e) → update_at r f d = update_at r g d.
Proof.
  destruct r as [|i]; simpl; intros H.
  - by rewrite H.
  - f_equal. by apply list_alter_ext.
Qed.

Lemma update_at_absent (d : Document) (r : Ref) (f : Element → Element) :
  element_at d r = None → update_at r f d = d.
Proof.
  destruct r as [|i], d as [b ns]; simpl; [done|]. intros H. f_equal.
  apply list_eq. intros j. rewrite list_lookup_alter.
  destruct (decide (i = j)) as [->|]; [by rewrite H | done].
Qed.

Lemma refs_update_at (d : Document) (r : Ref) (f : Element → Element) :
  refs (update_at r f d) = refs d.
Proof. destruct r; simpl; [done|]. unfold refs. simpl. by rewrite length_alter. Qed.

Lemma NoDup_refs (d : Document) : NoDup (refs d).
Proof.
  unfold refs. constructor.
  - intros (?&?&_)%list_elem_of_fmap. done.
  - apply NoDup_fmap_2; [intros ?? [=]; done | apply NoDup_seq].
Qed.

Lemma elem_of_refs (d : Document) (r : Ref) :
  r ∈ refs d ↔ is_Some (element_at d r).
Proof.
  unfold refs. rewrite elem_of_cons, list_elem_of_fmap. destruct r as [|i]; simpl.
  - split; [eauto | by left].
  - rewrite lookup_lt_is_Some. split.
    + intros [?|(j&[= ->]&Hj%elem_of_seq)]; [done | lia].
    + intros ?. right. exists i. split; [done|]. apply elem_of_seq. lia.
Qed.

(** ** Running script code *)

Lemma run_bind {A B} (m : M A) (f : A → M B) (w : World) :
  (m ≫= f) w
  = match m w with
    | (Normal a, w') => f a w'
    | (Abrupt e, w') => (Abrupt e, w')
    end.
Proof. reflexivity. Qed.

Lemma forEach_modify {A} (f : A → M unit) (g : A → World → World) (l : list A) (w : World) :
  (∀ x w, f x w = (Normal (), g x w)) →
  forEach f l w = (Normal (), foldl (λ w x, g x w) w l).
Proof.
  intros Hf. revert w. induction l as [|x l IH]; intros w; [done|].
  simpl. unfold mbind, M_bind. by rewrite Hf, IH.
Qed.

Lemma foldl_with_document {A} (g : A → Document → Document) (l : list A) (w : World) :
  foldl (λ w x, with_document (g x) w) w l
  = with_document (λ d, foldl (λ d x, g x d) d l) w.
Proof.
  revert w. induction l as [|x l IH]; intros w; simpl.
  - by destruct w.
  - by rewrite IH.
Qed.

(** ** Navigation *)

Lemma split_nonempty (sep : N) (s : jsstring) : split sep s ≠ [].
Proof.
  induction s as [|c s IH]; [done|]. simpl.
  destruct (N.eqb c sep); [done|]. by destruct (split sep s).
Qed.

Lemma split_app (sep : N) (a b : jsstring) :
  split sep (a ++ sep :: b) = split sep a ++ split sep b.
Proof.
  induction a as [|c a IH]; simpl.
  - by rewrite N.eqb_refl.
  - rewrite IH. destruct (N.eqb c sep); [done|].
    pose proof (split_nonempty sep a). by destruct (split sep a).
Qed.

Lemma split_plain (sep : N) (s : jsstring) : sep ∉ s → split sep s = [s].
Proof.
  induction s as [|c s IH]; [done|]. intros [Hc Hs]%not_elem_of_cons. simpl.
  rewrite IH by done. destruct (N.eqb_spec c sep); [congruence | done].
Qed.

(** The page name is the part of the path after its last [/], or
    [index.html] when nothing follows it. *)
Lemma currentPage_last_segment (dir segment : jsstring) :
  slash ∉ segment →
  currentPage (dir ++ slash :: segment)
  = match segment with [] => js "index.html" | _ => segment end.
Proof.
  intros H. unfold currentPage, pop.
  rewrite split_app, (split_plain _ segment), last_snoc by done. by destruct segment.
Qed.

Lemma add_idemp (c : jsstring) (l : list jsstring) : add c (add c l) = add c l.
Proof.
  unfold add at 1. destruct (contains c (add c l)) eqn:E; [done|].
  apply contains_false in E. rewrite elem_of_add in E. tauto.
Qed.

Lemma remove_idemp (c : jsstring) (l : list jsstring) :
  remove c (remove c l) = remove c l.
Proof.
  unfold remove. rewrite list_filter_filter. apply list_filter_iff. tauto.
Qed.

Lemma marked_idemp (page : jsstring) (e : Element) :
  marked page (marked page e) = marked page e.
Proof.
  unfold marked, set_classList. simpl.
  case_bool_decide; by rewrite ?add_idemp, ?remove_idemp.
Qed.

Lemma marked_attributes (page : jsstring) (e : Element) :
  attributes (marked page e) = attributes e.
Proof. done. Qed.

Lemma marked_active (page : jsstring) (e : Element) :
  js "active" ∈ classList (marked page e) ↔ attributes e !! js "href" = Some page.
Proof.
  unfold marked. simpl. case_bool_decide.
  - rewrite elem_of_add. tauto.
  - rewrite elem_of_remove. tauto.
Qed.

Lemma marked_other (page c : jsstring) (e : Element) :
  c ≠ js "active" → c ∈ classList (marked page e) ↔ c ∈ classList e.
Proof.
  intros ?. unfold marked. simpl. case_bool_decide.
  - rewrite elem_of_add. tauto.
  - rewrite elem_of_remove. tauto.
Qed.

Lemma mark_step (page : jsstring) (link : Ref) (w : World) :
  (linkPage ← getAttribute link (js "href");
   if bool_decide (linkPage = Some page)
   then classList_add link (js "active")
   else classList_remove link (js "active")) w
  = (Normal (), with_document (update_at link (marked page)) w).
Proof.
  unfold mbind, M_bind, getAttribute, gets. simpl.
  destruct (element_at (document w) link) as [e|] eqn:He; simpl.
  - case_bool_decide as Hp;
      unfold classList_add, classList_remove, update_element, modify, with_document;
      do 2 f_equal; apply update_at_ext; intros e' He'; simplify_eq;
      unfold marked; by case_bool_decide.
  - unfold classList_remove, update_element, modify, with_document.
    by rewrite !update_at_absent.
Qed.

Lemma foldl_update_absent (f : Element → Element) (links : list Ref) (d : Document) (r : Ref) :
  r ∉ links →
  element_at (foldl (λ d l, update_at l f d) d links) r = element_at d r.
Proof.
  revert d. induction links as [|l links IH]; intros d Hr; [done|].
  apply not_elem_of_cons in Hr as [? ?]. simpl.
  rewrite IH, element_at_update_at by done. by rewrite decide_False.
Qed.

Lemma foldl_update_present (f : Element → Element) (links : list Ref) (d : Document) (r : Ref) :
  (∀ e, f (f e) = f e) → r ∈ links →
  element_at (foldl (λ d l, update_at l f d) d links) r = f <$> element_at d r.
Proof.
  intros Hf. revert d. induction links as [|l links IH]; intros d Hr.
  { by apply elem_of_nil in Hr. }
  simpl. destruct (decide (r ∈ links)) as [Hin|Hout].
  - rewrite IH, element_at_update_at by done. case_decide; [|done].
    destruct (element_at d r); simpl; by rewrite ?Hf.
  - apply elem_of_cons in Hr as [->|?]; [|done].
    rewrite foldl_update_absent, element_at_update_at by done.
    by rewrite decide_True.
Qed.

Lemma refs_foldl_update (f : Element → Element) (links : list Ref) (d : Document) :
  refs (foldl (λ d l, update_at l f d) d links) = refs d.
Proof.
  revert d. induction links as [|l links IH]; intros d; [done|].
  simpl. by rewrite IH, refs_update_at.
Qed.

Lemma initializeNavigation_runs (w : World) :
  ∃ ls,
    initializeNavigation w
    = (Normal (),
       with_listeners (λ _, ls)
         (with_document
            (λ d, foldl (λ d l, update_at l (marked (currentPage (pathname w))) d) d
                    (querySelectorAll (ByClass (js "nav-link")) (document w))) w)).
Proof.
  unfold initializeNavigation.
  rewrite run_bind. unfold gets at 1. rewrite run_bind. unfold gets at 1.
  rewrite run_bind.
  rewrite (forEach_modify _
    (λ l, with_document (update_at l (marked (currentPage (pathname w)))))) by
    (intros; apply mark_step).
  rewrite foldl_with_document. unfold mbind, M_bind, gets.
  match goal with |- context [getElementById ?i ?d] => destruct (getElementById i d) end.
  - eexists. unfold addEventListener, modify, with_listeners. simpl. reflexivity.
  - exists (listeners w). by destruct w.
Qed.

Lemma nav_link_not_active : js "nav-link" ≠ js "active".
Proof. discriminate. Qed.

(** C1: after [initializeNavigation], the navigation links are the same
    elements with the same attributes, and a navigation link carries the
    class [active] exactly when its [href] attribute is the page name; so
    no link carries it when no [href] matches.  The page name is the last
    segment of the location path, [index.html] when that segment is
    empty. *)
Theorem initializeNavigation_marks_current (w : World) :
  let w' := (initializeNavigation w).2 in
  let page := or_else (pop (split slash (pathname w))) (js "index.html") in
  (initializeNavigation w).1 = Normal () ∧
  querySelectorAll (ByClass (js "nav-link")) (document w')
  = querySelectorAll (ByClass (js "nav-link")) (document w) ∧
  (∀ link, link ∈ querySelectorAll (ByClass (js "nav-link")) (document w) →
    ∃ e e', element_at (document w) link = Some e ∧
            element_at (document w') link = Some e' ∧
            attributes e' = attributes e ∧
            (contains (js "active") (classList e') = true
             ↔ attributes e !! js "href" = Some page)) ∧
  (∀ dir segment, pathname w = dir ++ slash :: segment → slash ∉ segment →
     page = match segment with [] => js "index.html" | _ => segment end).
Proof.
  intros w' page.
  assert (∀ dir segment, pathname w = dir ++ slash :: segment → slash ∉ segment →
            page = match segment with [] => js "index.html" | _ => segment end) as Hpage.
  { intros dir segment Hpath Hseg. rewrite <-(currentPage_last_segment dir) by done.
    by rewrite <-Hpath. }
  cut ((initializeNavigation w).1 = Normal () ∧
       querySelectorAll (ByClass (js "nav-link")) (document w')
       = querySelectorAll (ByClass (js "nav-link")) (document w) ∧
       (∀ link, link ∈ querySelectorAll (ByClass (js "nav-link")) (document w) →
          ∃ e e', element_at (document w) link = Some e ∧
                  element_at (document w') link = Some e' ∧
                  attributes e' = attributes e ∧
                  (contains (js "active") (classList e') = true
                   ↔ attributes e !! js "href" = Some page))); [tauto|].
  clear Hpage. destruct (initializeNavigation_runs w) as [ls Hrun].
  subst w'. rewrite Hrun. simpl. change (currentPage (pathname w)) with page.
  set (links := querySelectorAll (ByClass (js "nav-link")) (document w)).
  assert (Hat : ∀ r, element_at (foldl (λ d l, update_at l (marked page) d) (document w) links) r
                     = if decide (r ∈ links) then marked page <$> element_at (document w) r
                       else element_at (document w) r).
  { intros r. case_decide.
    - by apply foldl_update_present; [apply marked_idemp|].
    - by apply foldl_update_absent. }
  split_and!; [done| |].
  - unfold querySelectorAll. rewrite refs_foldl_update.
    apply list_filter_iff. intros r. unfold selects. rewrite Hat.
    case_decide; [|done].
    destruct (element_at (document w) r) as [e|]; simpl; [|done].
    rewrite !contains_true. by apply marked_other, nav_link_not_active.
  - intros link Hlink. rewrite Hat, decide_True by done.
    assert (is_Some (element_at (document w) link)) as [e He].
    { apply elem_of_refs. unfold links, querySelectorAll in Hlink.
      by apply list_elem_of_filter in Hlink as [_ ?]. }
    exists e, (marked page e). rewrite He. split_and!; try done.
    rewrite contains_true. apply marked_active.
Qed.

Lemma initializeNavigation_marks_current_witness :
  let w := page_with_navigation in
  ∃ e e', element_at (document w) (RNode 1) = Some e ∧
          element_at (document (initializeNavigation w).2) (RNode 1) = Some e' ∧
          attributes e' = attributes e ∧
          (contains (js "active") (classList e') = true
           ↔ attributes e !! js "href" = Some (js "about.html")).
Proof.
  intros w. destruct (initializeNavigation_marks_current w) as (_ & _ & H & _).
  apply H. vm_compute. repeat constructor.
Defined.

(** ** Missing elements *)

Lemma updateThemeIcon_absent (isLight : bool) (w : World) :
  getElementById (js "theme-toggle") (document w) = None →
  updateThemeIcon isLight w = (Normal (), w).
Proof. intros H. unfold updateThemeIcon. rewrite run_bind. unfold gets. by rewrite H. Qed.

Lemma initializeTheme_absent (w : World) :
  getElementById (js "theme-toggle") (document w) = None →
  initializeTheme w = (Normal (), w).
Proof. intros H. unfold initializeTheme. rewrite run_bind. unfold gets. by rewrite H. Qed.

Lemma smoothScrollTo_absent (select : jsstring → Document → Completion (option Ref))
    (target : jsstring) (w : World) :
  select target (document w) = Normal None →
  smoothScrollTo select target w = (Normal (), w).
Proof.
  intros H. unfold smoothScrollTo. rewrite run_bind. unfold document_querySelector.
  by rewrite H.
Qed.

Lemma initializeAnimations_absent (w : World) :
  querySelectorAll (ByAttribute (js "data-animate")) (document w) = [] →
  initializeAnimations w = (Normal (), w).
Proof.
  intros H. unfold initializeAnimations. rewrite run_bind. unfold gets at 1.
  rewrite H, run_bind. by unfold gets.
Qed.

Lemma mobileNavToggleClick_missing_container (w : World) :
  querySelector (ByClass (js "nav-links")) (document w) = None →
  mobileNavToggleClick w = (Abrupt TypeError, w).
Proof.
  intros H. unfold mobileNavToggleClick. rewrite run_bind. unfold gets. by rewrite H.
Qed.

(** C3: the listener of the mobile-nav toggle does not check that the
    [.nav-links] container exists.  On a page that has the toggle and no
    container, [initializeNavigation] registers the listener and a click
    on the toggle ends in a [TypeError]. *)
Theorem mobileNavToggle_click_throws :
  getElementById (js "mobile-nav-toggle") (document page_without_nav_links)
  = Some (RNode 0) ∧
  querySelector (ByClass (js "nav-links")) (document page_without_nav_links) = None ∧
  (initializeNavigation page_without_nav_links).1 = Normal () ∧
  (click (RNode 0) (initializeNavigation page_without_nav_links).2).1 = [TypeError].
Proof. by vm_compute. Qed.

(** ** Lookups after an update *)

Lemma filter_refs_update_at (p : Element → bool) (r : Ref) (f : Element → Element)
    (d : Document) :
  (∀ e, p (f e) = p e) →
  filter (λ r', selects (update_at r f d) p r' = true) (refs (update_at r f d))
  = filter (λ r', selects d p r' = true) (refs d).
Proof.
  intros Hp. rewrite refs_update_at. apply list_filter_iff. intros r'.
  unfold selects. rewrite element_at_update_at. case_decide; [|done].
  destruct (element_at d r'); simpl; by rewrite ?Hp.
Qed.

Lemma getElementById_update_at (i : jsstring) (r : Ref) (f : Element → Element)
    (d : Document) :
  (∀ e, attributes (f e) = attributes e) →
  getElementById i (update_at r f d) = getElementById i d.
Proof.
  intros Hf. unfold getElementById. f_equal.
  apply (filter_refs_update_at (λ e, bool_decide (attributes e !! js "id" = Some i))).
  intros e. by rewrite Hf.
Qed.

Lemma querySelectorAll_update_at (sel : Selector) (r : Ref) (f : Element → Element)
    (d : Document) :
  (∀ e, matches sel (f e) = matches sel e) →
  querySelectorAll sel (update_at r f d) = querySelectorAll sel d.
Proof. intros Hf. by apply (filter_refs_update_at (matches sel)). Qed.

Lemma getElementById_Some (i : jsstring) (d : Document) (t : Ref) :
  getElementById i d = Some t →
  ∃ e, element_at d t = Some e ∧ attributes e !! js "id" = Some i.
Proof.
  unfold getElementById. intros H%head_Some_elem_of.
  apply list_elem_of_filter in H as [H _]. unfold selects in H.
  destruct (element_at d t) as [e|]; [|done].
  exists e. split; [done|]. by apply bool_decide_eq_true in H.
Qed.

Lemma querySelector_Some (sel : Selector) (d : Document) (t : Ref) :
  querySelector sel d = Some t →
  ∃ e, element_at d t = Some e ∧ matches sel e = true.
Proof.
  unfold querySelector, querySelectorAll. intros H%head_Some_elem_of.
  apply list_elem_of_filter in H as [H _]. unfold selects in H.
  destruct (element_at d t) as [e|]; [|done]. by exists e.
Qed.

Lemma body_classList_update_at (r : Ref) (f : Element → Element) (d : Document) :
  (∀ e, classList (f e) = classList e) →
  classList (body (update_at r f d)) = classList (body d).
Proof. intros Hf. destruct r; simpl; by rewrite ?Hf. Qed.

Lemma contains_toggle (c : jsstring) (l : list jsstring) :
  contains c (toggle c l) = negb (contains c l).
Proof.
  destruct (contains c l) eqn:E; simpl.
  - apply contains_false. rewrite elem_of_toggle_eq. apply contains_true in E. tauto.
  - apply contains_true. rewrite elem_of_toggle_eq. by apply contains_false.
Qed.

(** ** Theme *)

Lemma body_update_at_classList (r : Ref) (f : Element → Element) (d : Document) :
  (∀ e c, c ≠ js "mobile-active" → c ∈ classList (f e) ↔ c ∈ classList e) →
  js "light-theme" ∈ classList (body (update_at r f d))
  ↔ js "light-theme" ∈ classList (body d).
Proof.
  intros Hf. destruct r; simpl; [|done]. apply Hf. discriminate.
Qed.

Lemma textContent_after_set (t : Ref) (icon : jsstring) (d : Document) :
  is_Some (element_at d t) →
  textContent <$> element_at (update_at t (set_textContent icon) d) t = Some icon.
Proof.
  intros [e He]. by rewrite element_at_update_at, decide_True, He by done.
Qed.

Lemma updateThemeIcon_exact (isLight : bool) (w : World) :
  updateThemeIcon isLight w
  = (Normal (),
     match getElementById (js "theme-toggle") (document w) with
     | Some t =>
         with_document (update_at t (set_textContent (if isLight then moon else sun))) w
     | None => w
     end).
Proof.
  unfold updateThemeIcon. rewrite run_bind. unfold gets.
  by destruct (getElementById _ _).
Qed.

Lemma with_localStorage_insert_id (k v : jsstring) (w : World) :
  localStorage w !! k = Some v → with_localStorage (<[k := v]>) w = w.
Proof.
  intros H. destruct w. unfold with_localStorage. simpl in *. f_equal. by apply insert_id.
Qed.

Lemma setItem_exact (k v : jsstring) (w : World) :
  setItem k v w
  = if stores k v w then (Normal (), with_localStorage (<[k := v]>) w)
    else (Abrupt (storage_error w), w).
Proof.
  unfold setItem, stores, storage_error. rewrite run_bind. unfold gets at 1.
  destruct (storageAccess w) as [|fits]; [done|].
  rewrite run_bind. unfold gets. case_bool_decide as H; simpl.
  - by rewrite with_localStorage_insert_id.
  - by destruct (fits _).
Qed.

Lemma getItem_exact (k : jsstring) (w : World) :
  getItem k w
  = match storageAccess w with
    | StorageBlocked => (Abrupt SecurityError, w)
    | StorageAllowed _ => (Normal (localStorage w !! k), w)
    end.
Proof.
  unfold getItem. rewrite run_bind. unfold gets at 1. by destruct (storageAccess w).
Qed.

Lemma themeToggleClick_exact (w : World) :
  let isLight := negb (contains (js "light-theme") (classList (body (document w)))) in
  let v := if isLight then js "light" else js "dark" in
  let w1 := with_document
              (update_at RBody
                 (λ e, set_classList (toggle (js "light-theme") (classList e)) e)) w in
  let w2 := with_localStorage (<[js "theme" := v]>) w1 in
  themeToggleClick w
  = if stores (js "theme") v w
    then (Normal (),
          match getElementById (js "theme-toggle") (document w) with
          | Some t =>
              with_document (update_at t (set_textContent (if isLight then moon else sun))) w2
          | None => w2
          end)
    else (Abrupt (storage_error w), w1).
Proof.
  intros isLight v w1 w2. unfold themeToggleClick. rewrite run_bind.
  unfold classList_toggle at 1, update_element, modify. rewrite run_bind.
  unfold classList_contains at 1. rewrite run_bind.
  unfold classList_of at 1, gets at 1. cbn [mret M_ret].
  rewrite run_bind, setItem_exact. fold w1.
  assert (contains (js "light-theme")
            (default [] (classList <$> element_at (document w1) RBody)) = isLight) as ->
    by (simpl; apply contains_toggle).
  fold v. change (stores (js "theme") v w1) with (stores (js "theme") v w).
  change (storage_error w1) with (storage_error w).
  destruct (stores (js "theme") v w); [|done].
  rewrite updateThemeIcon_exact. fold w2.
  change (document w2) with (document w1). unfold w1 at 1. cbn [document with_document].
  by rewrite getElementById_update_at by done.
Qed.

Lemma initializeTheme_exact (w : World) :
  initializeTheme w
  = match getElementById (js "theme-toggle") (document w) with
    | Some t =>
        let w1 := with_listeners (λ l, l ++ [(t, ThemeToggleClick)]) w in
        match storageAccess w with
        | StorageBlocked => (Abrupt SecurityError, w1)
        | StorageAllowed _ =>
            (Normal (),
             if bool_decide (localStorage w !! js "theme" = Some (js "light"))
             then with_document (update_at t (set_textContent moon))
                    (with_document
                       (update_at RBody
                          (λ e, set_classList (add (js "light-theme") (classList e)) e)) w1)
             else w1)
        end
    | None => (Normal (), w)
    end.
Proof.
  unfold initializeTheme. rewrite run_bind. unfold gets at 1.
  destruct (getElementById _ _) as [t|] eqn:Ht; [|done].
  rewrite run_bind. unfold addEventListener at 1, modify. rewrite run_bind, getItem_exact.
  cbn [storageAccess localStorage with_listeners].
  destruct (storageAccess w); [done|].
  case_bool_decide; [|done].
  rewrite run_bind. unfold classList_add at 1, update_element, modify.
  rewrite updateThemeIcon_exact.
  cbn [document with_document with_listeners].
  by rewrite getElementById_update_at, Ht by done.
Qed.

Lemma themeToggleClick_light (w : World) :
  contains (js "light-theme") (classList (body (document (themeToggleClick w).2)))
  = negb (contains (js "light-theme") (classList (body (document w)))).
Proof.
  rewrite themeToggleClick_exact.
  destruct (stores _ _ w); cbn [snd]; [|apply contains_toggle].
  destruct (getElementById _ _); simpl.
  - rewrite body_classList_update_at by done. simpl. apply contains_toggle.
  - apply contains_toggle.
Qed.

Lemma themeToggleClick_storage (w : World) :
  let v := if contains (js "light-theme") (classList (body (document (themeToggleClick w).2)))
           then js "light" else js "dark" in
  (themeToggleClick w).1 = (if stores (js "theme") v w then Normal ()
                            else Abrupt (storage_error w)) ∧
  localStorage (themeToggleClick w).2
  = (if stores (js "theme") v w then <[js "theme" := v]> (localStorage w)
     else localStorage w) ∧
  storageAccess (themeToggleClick w).2 = storageAccess w.
Proof.
  rewrite themeToggleClick_light. cbn zeta. rewrite themeToggleClick_exact.
  destruct (stores _ _ w); cbn [fst snd]; [|done].
  by destruct (getElementById _ _).
Qed.

Lemma themeToggleClick_agrees (w : World) :
  (themeToggleClick w).1 = Normal () → theme_agrees (themeToggleClick w).2.
Proof.
  destruct (themeToggleClick_storage w) as (Hr & Hs & _). cbn zeta in Hr, Hs.
  rewrite Hr. unfold theme_agrees. rewrite Hs.
  destruct (stores _ _ w); [|done]. intros _. rewrite lookup_insert_eq.
  by destruct (contains _ _).
Qed.

Lemma themeToggleClick_disagrees (w : World) :
  theme_agrees w → (themeToggleClick w).1 ≠ Normal () →
  ¬ theme_agrees (themeToggleClick w).2.
Proof.
  destruct (themeToggleClick_storage w) as (Hr & Hs & _). cbn zeta in Hr, Hs.
  rewrite Hr. unfold theme_agrees. rewrite Hs, themeToggleClick_light. clear Hr Hs.
  destruct (stores _ _ w); [intros _ H; exfalso; by apply H|]. intros Hw _ Hw'.
  destruct (contains _ (classList (body (document w)))); simpl in *.
  - destruct Hw as [Hw _]. destruct Hw' as [_ Hw']. by specialize (Hw' (Hw eq_refl)).
  - destruct Hw as [_ Hw]. destruct Hw' as [Hw' _]. by specialize (Hw (Hw' eq_refl)).
Qed.

Lemma theme_storable_stores (v : jsstring) (w : World) :
  theme_storable w = true → v = js "light" ∨ v = js "dark" →
  stores (js "theme") v w = true.
Proof.
  unfold theme_storable, stores. destruct (storageAccess w) as [|fits]; [done|].
  intros [? ?]%andb_true_iff [-> | ->]; apply orb_true_iff; by right.
Qed.

Lemma themeToggleClick_storable (w : World) :
  theme_storable w = true →
  (themeToggleClick w).1 = Normal () ∧ theme_storable (themeToggleClick w).2 = true.
Proof.
  intros Hw. destruct (themeToggleClick_storage w) as (Hr & Hs & Ha). cbn zeta in Hr, Hs.
  rewrite Hr. unfold theme_storable. rewrite Hs, Ha.
  rewrite (theme_storable_stores _ w Hw) by (destruct (contains _ _); auto).
  split; [done|]. unfold theme_storable in Hw.
  destruct (storageAccess w); [done|]. by rewrite !insert_insert_eq.
Qed.

Lemma mobileNavToggleClick_agrees (w : World) :
  theme_agrees w → theme_agrees (mobileNavToggleClick w).2.
Proof.
  intros Hw. unfold mobileNavToggleClick. rewrite run_bind. unfold gets.
  destruct (querySelector _ _) as [c|]; [|done].
  unfold theme_agrees in *. simpl. rewrite contains_true in *.
  rewrite <-Hw. apply body_update_at_classList.
  intros e d Hd. simpl. by apply elem_of_toggle_ne.
Qed.

Lemma mobileNavToggleClick_storable (w : World) :
  theme_storable (mobileNavToggleClick w).2 = theme_storable w.
Proof.
  unfold mobileNavToggleClick. rewrite run_bind. unfold gets.
  by destruct (querySelector _ _).
Qed.

Lemma dispatch_agrees (hs : list Handler) (w : World) :
  theme_storable w = true → theme_agrees w →
  theme_storable (dispatch hs w).2 = true ∧ theme_agrees (dispatch hs w).2.
Proof.
  revert w. induction hs as [|h hs IH]; intros w Hs Hw; [done|].
  simpl.
  assert (theme_storable (run_handler h w).2 = true ∧ theme_agrees (run_handler h w).2)
    as [Hs1 Hh].
  { destruct h; simpl.
    - by rewrite mobileNavToggleClick_storable; split; [|apply mobileNavToggleClick_agrees].
    - destruct (themeToggleClick_storable w Hs). split; [done|].
      by apply themeToggleClick_agrees. }
  destruct (run_handler h w) as [[[]|e] w1]; simpl in Hs1, Hh.
  - by apply IH.
  - specialize (IH w1 Hs1 Hh). by destruct (dispatch hs w1).
Qed.

Lemma clicks_agree (rs : list Ref) (w : World) :
  theme_storable w = true → theme_agrees w →
  theme_storable (clicks rs w) = true ∧ theme_agrees (clicks rs w).
Proof.
  revert w. induction rs as [|r rs IH]; intros w Hs Hw; [done|].
  destruct (dispatch_agrees (listeners_on r w) w Hs Hw). by apply IH.
Qed.

Lemma initializeTheme_agrees (w : World) :
  is_Some (getElementById (js "theme-toggle") (document w)) →
  contains (js "light-theme") (classList (body (document w))) = false →
  storageAccess w ≠ StorageBlocked →
  theme_agrees (initializeTheme w).2.
Proof.
  intros [t Ht] Hbody Ha. rewrite initializeTheme_exact, Ht. cbn zeta.
  destruct (storageAccess w) as [|fits]; [done|].
  cbn [snd]. unfold theme_agrees. case_bool_decide as Hsaved.
  - cbn [localStorage document with_document with_listeners].
    rewrite body_classList_update_at by done. simpl.
    rewrite contains_true, elem_of_add. split; [done | by left].
  - cbn [localStorage document with_listeners]. rewrite Hbody.
    split; [done | by intros ?].
Qed.

Lemma initializeTheme_storable (w : World) :
  is_Some (getElementById (js "theme-toggle") (document w)) →
  contains (js "light-theme") (classList (body (document w))) = false →
  theme_storable w = true →
  theme_storable (initializeTheme w).2 = true ∧ theme_agrees (initializeTheme w).2.
Proof.
  intros Ht Hbody Hs. split.
  - rewrite <-Hs. rewrite initializeTheme_exact. destruct Ht as [t ->]. cbn zeta.
    unfold theme_storable in *. destruct (storageAccess w) eqn:Ha; [done|]. cbn [snd].
    case_bool_decide; cbn [storageAccess localStorage with_document with_listeners];
      by rewrite Ha.
  - apply initializeTheme_agrees; [done..|].
    unfold theme_storable in Hs. by destruct (storageAccess w).
Qed.

(** C2, as the script has it.  A click handled by the theme listener
    that ends normally leaves the persisted ["theme"] and the body's
    [light-theme] class in agreement.  A page load does so, and so does
    every series of clicks after it, on a page that has the theme toggle,
    whose body does not carry the class before the script runs, and
    whose storage can be read and has room for the theme.  On a page
    without the toggle [initializeTheme] changes nothing.  A click whose
    write fails throws after the class was toggled: where the two agreed
    before it, they disagree after it. *)
Theorem theme_agrees_with_toggle :
  (∀ w, (themeToggleClick w).1 = Normal () → theme_agrees (themeToggleClick w).2) ∧
  (∀ w rs,
     is_Some (getElementById (js "theme-toggle") (document w)) →
     contains (js "light-theme") (classList (body (document w))) = false →
     theme_storable w = true →
     theme_agrees (initializeTheme w).2 ∧
     theme_agrees (clicks rs (initializeTheme w).2)) ∧
  (∀ w, getElementById (js "theme-toggle") (document w) = None →
        initializeTheme w = (Normal (), w)) ∧
  (∀ w, theme_agrees w → (themeToggleClick w).1 ≠ Normal () →
        ¬ theme_agrees (themeToggleClick w).2).
Proof.
  split_and!.
  - apply themeToggleClick_agrees.
  - intros w rs Ht Hb Hs. destruct (initializeTheme_storable w Ht Hb Hs) as [Hs' Ha].
    split; [done|]. by apply clicks_agree.
  - apply initializeTheme_absent.
  - apply themeToggleClick_disagrees.
Qed.

(** C2 fails as stated: on a page without the theme toggle the persisted
    value stays ["light"] and the body never gets the class. *)
Lemma theme_disagrees_without_toggle :
  ¬ theme_agrees (initializeTheme page_without_theme_toggle).2.
Proof.
  unfold theme_agrees. intros [_ H].
  assert (E : contains (js "light-theme")
                (classList (body (document (initializeTheme page_without_theme_toggle).2)))
              = false) by (by vm_compute).
  rewrite E in H. discriminate H. by vm_compute.
Qed.

Lemma theme_agrees_with_toggle_witness :
  theme_agrees (clicks [RNode 0; RNode 0; RNode 0] (initializeTheme page_with_theme_toggle).2).
Proof.
  apply (proj1 (proj2 theme_agrees_with_toggle) page_with_theme_toggle).
  - exists (RNode 0). by vm_compute.
  - by vm_compute.
  - by vm_compute.
Defined.

(** ** withErrorHandling *)

(** C9: for a function [fn], the wrapper returns [fn]'s result when [fn]
    does not raise.  When [fn] raises, the wrapper logs the function's
    name and the error and then ends as the call of [fallback] with the
    same arguments does if [fallback] is a function, and returns the
    fallback value otherwise ([null] when the argument was left
    [undefined]).  The wrapper ends abruptly only when such a fallback
    call does: the error of [fn] is not raised again. *)
Theorem withErrorHandling_substitutes
    (apply_code : nat → list Value → Completion Value)
    (name : jsstring) (code : nat) (fallback : Value) (args : list Value) (w : World) :
  let fn := VFunction name code in
  let wrapper := withErrorHandling apply_code fn fallback args in
  let logged error := with_log (λ l, l ++ [ConsoleError (VString name) error]) w in
  match call apply_code fn args with
  | Normal result => wrapper w = (Normal result, w)
  | Abrupt error =>
      match fallback_parameter fallback with
      | VFunction fname fcode =>
          wrapper w = (call apply_code (VFunction fname fcode) args, logged error)
      | value => wrapper w = (Normal value, logged error)
      end
  end ∧
  (fallback_parameter VUndefined = VNull) ∧
  (∀ e w', wrapper w = (Abrupt e, w') →
     ∃ error, call apply_code fn args = Abrupt error ∧
              is_function fallback = true ∧
              call apply_code fallback args = Abrupt e).
Proof.
  intros fn wrapper logged. subst wrapper. unfold withErrorHandling. simpl.
  split_and!; [| done |].
  - destruct (apply_code code args) as [result|error]; [done|].
    by destruct fallback.
  - intros e w'. destruct (apply_code code args) as [result|error]; [done|].
    destruct fallback; simpl; try done.
    unfold lift. intros [= H ?]. eauto.
Qed.

Lemma withErrorHandling_substitutes_witness :
  ∃ error, call sample_code (VFunction (js "f") 1) [] = Abrupt error ∧
           is_function (VFunction (js "g") 2) = true ∧
           call sample_code (VFunction (js "g") 2) [] = Abrupt (VString (js "boom")).
Proof.
  eapply (proj2 (proj2 (withErrorHandling_substitutes sample_code (js "f") 1
                          (VFunction (js "g") 2) [] page_with_theme_toggle))).
  reflexivity.
Defined.

(** ** Clipboard *)

Lemma removeChild_appendChild (e : Element) (d : Document) :
  removeChild (appendChild e d).2 (appendChild e d).1 = d.
Proof.
  destruct d as [b ns]. simpl. f_equal.
  rewrite (delete_middle ns [] e). apply app_nil_r.
Qed.

(** With the clipboard API present the function settles as the comments
    in the source say. *)
Lemma copyToClipboard_with_api (text : jsstring) (w : World) :
  match clipboard w with
  | Some WriteResolves => copyToClipboard text w = (Normal (Fulfilled true), w)
  | Some WriteRejects =>
      let r := RNode (length (nodes (document w))) in
      let copied := match execCommandCopy w with Normal _ => true | Abrupt _ => false end in
      copyToClipboard text w
      = (Normal (Fulfilled copied),
         with_log (λ l, l ++ [CreatedElement; AppendedChild r; Selected r; ExecCommand;
                              RemovedChild r]) w)
  | None => copyToClipboard text w = (Abrupt TypeError, w)
  end.
Proof.
  destruct w as [d p s sa l io obs y c x lg].
  destruct c as [[]|]; [reflexivity| |reflexivity].
  pose proof (removeChild_appendChild (set_value text createElement) d) as Hd.
  unfold copyToClipboard, body_appendChild, body_removeChild, emit, modify, gets,
    mbind, M_bind, mret, M_ret, with_log, with_document.
  simpl in *. destruct x; simpl; rewrite Hd, <-!app_assoc; reflexivity.
Qed.

(** C6: where [navigator.clipboard] is [undefined] (an older browser, a
    page not served over https) the primary write fails with a
    [TypeError] thrown by the call itself: no promise is returned, no
    temporary element is made and the fallback of lines 133-145 is never
    reached. *)
Theorem copyToClipboard_without_api (text : jsstring) (d : Document) (p : jsstring)
    (s : gmap jsstring jsstring) (sa : StorageAccess) (l : list (Ref * Handler))
    (io : bool) (obs : list Observer) (y : Z) (x : Completion bool) (lg : list Effect) :
  copyToClipboard text (mkWorld d p s sa l io obs y None x lg)
  = (Abrupt TypeError, mkWorld d p s sa l io obs y None x lg).
Proof. reflexivity. Qed.

(** ** Timers *)



Lemma timer_delay_nonneg (z : Z) : 0 ≤ timer_delay z.
Proof. unfold timer_delay. lia. Qed.




Lemma due_before_ge (b : bool) (deadline t : Z) :
  due_before b deadline t = false → t ≤ deadline.
Proof. intros ?%bool_decide_eq_false. destruct b; lia. Qed.

Section TimerFacts.
Context {C V : Type} (fire : C → Loop C V → Loop C V).

Lemma next_due_single_late (T : Z) (t : Timer C) :
  T < deadline t → next_due T [t] = None.
Proof. intros ?. unfold next_due. rewrite filter_cons_False by lia. done. Qed.

Lemma next_due_single_due (T : Z) (t : Timer C) :
  deadline t ≤ T → next_due T [t] = Some t.
Proof. intros ?. unfold next_due. rewrite filter_cons_True by lia. done. Qed.

Lemma run_until_idle (horizon T : Z) (l : Loop C V) :
  timers l = [] → run_until fire horizon T l = set_now (Z.max (now l) T) l.
Proof. intros H. unfold run_until. by rewrite H. Qed.

Lemma run_until_single_late (horizon T : Z) (t : Timer C) (l : Loop C V) :
  timers l = [t] → horizon < deadline t →
  run_until fire horizon T l = set_now (Z.max (now l) T) l.
Proof.
  intros H ?. unfold run_until. rewrite H. cbn [length run_due].
  by rewrite H, next_due_single_late.
Qed.

Lemma run_until_single_due (horizon T : Z) (t : Timer C) (l : Loop C V) :
  timers l = [t] → deadline t ≤ horizon →
  let l1 := clearTimeout (Some (timer_id t)) (set_now (Z.max (now l) (deadline t)) l) in
  let l2 := fire (callback t) l1 in
  run_until fire horizon T l = set_now (Z.max (now l2) T) l2.
Proof.
  intros H ?. unfold run_until. rewrite H. cbn [length run_due].
  by rewrite H, next_due_single_due.
Qed.

Lemma advance_idle (T : Z) (l : Loop C V) :
  timers l = [] → advance fire T l = set_now (Z.max (now l) T) l.
Proof. apply run_until_idle. Qed.


Lemma advance_single_due (T : Z) (t : Timer C) (l : Loop C V) :
  timers l = [t] → deadline t ≤ T →
  let l1 := clearTimeout (Some (timer_id t)) (set_now (Z.max (now l) (deadline t)) l) in
  let l2 := fire (callback t) l1 in
  advance fire T l = set_now (Z.max (now l2) T) l2.
Proof. apply run_until_single_due. Qed.

Lemma arrive_idle (b : bool) (T : Z) (l : Loop C V) :
  timers l = [] → arrive fire b T l = set_now (Z.max (now l) T) l.
Proof. apply run_until_idle. Qed.



Lemma clearTimeout_single (t : Timer C) (l : Loop C V) :
  timers l = [t] → timers (clearTimeout (Some (timer_id t)) l) = [].
Proof.
  intros H. simpl. rewrite H. by rewrite filter_cons_False by (by intros []).
Qed.
End TimerFacts.

Section Debounce.
Variable apply_code : nat → list Value → Completion Value.
Variables (name : jsstring) (code : nat) (wait : Z).

Let func := VFunction name code.
Let delay := timer_delay wait.





End Debounce.






Lemma pair_eta (c : Z * list Value) : (c.1, c.2) = c.
Proof. by destruct c. Qed.

Section Throttle.
Variable run_code : nat → list Value → Throttled → Completion Value * Throttled.
Variables (name : jsstring) (code : nat) (limit : Z).
Hypothesis returns : ∀ args l, ∃ v, run_code code args l = (Normal v, l).

Let func := VFunction name code.
Let delay := timer_delay limit.








End Throttle.




(** ** Scroll animations *)

Lemma animation_writes_snoc (r : Ref) (l : list Effect) (r' : Ref) (p v : jsstring) :
  animation_writes r (l ++ [StyleWrite r' p v])
  = animation_writes r l
    ++ (if bool_decide (r' = r ∧ p = js "animation") then [v] else []).
Proof.
  unfold animation_writes. rewrite omap_app. simpl. by case_bool_decide.
Qed.

Lemma style_set_runs (r' : Ref) (p v : jsstring) (w : World) :
  style_set r' p v w
  = (Normal (),
     with_log (λ l, l ++ [StyleWrite r' p v])
       (with_document (update_at r' (set_style p v)) w)).
Proof. reflexivity. Qed.

Lemma name_at_style (r r' : Ref) (p v : jsstring) (w : World) :
  name_at r (with_log (λ l, l ++ [StyleWrite r' p v])
               (with_document (update_at r' (set_style p v)) w))
  = name_at r w.
Proof.
  unfold name_at. simpl. rewrite element_at_update_at.
  case_decide; [|done]. by destruct (element_at (document w) r).
Qed.

Lemma opacity_at_style (r r' : Ref) (p v : jsstring) (w : World) :
  opacity_at r (with_log (λ l, l ++ [StyleWrite r' p v])
                  (with_document (update_at r' (set_style p v)) w))
  = if bool_decide (r = r' ∧ p = js "opacity" ∧ is_Some (element_at (document w) r))
    then Some v
    else if bool_decide (r = r' ∧ p = js "opacity") then None
    else opacity_at r w.
Proof.
  unfold opacity_at. simpl. rewrite element_at_update_at.
  destruct (decide (r = r')) as [->|Hne].
  - destruct (element_at (document w) r') as [e|] eqn:He; simpl.
    + destruct (decide (p = js "opacity")) as [->|Hp].
      * rewrite bool_decide_eq_true_2 by eauto. apply lookup_insert_eq.
      * rewrite !bool_decide_eq_false_2 by tauto. by apply lookup_insert_ne.
    + rewrite bool_decide_eq_false_2 by (intros (_&_&[? [=]])).
      by case_bool_decide.
  - by rewrite !bool_decide_eq_false_2 by tauto.
Qed.

Lemma targets_of_unobserve (r r' : Ref) (k : nat) (w : World) :
  targets_of r (with_observers (alter (filter (λ t, t.1 ≠ r')) k) w)
  = if decide (r = r') then alter (λ _, []) k (targets_of r w) else targets_of r w.
Proof.
  unfold targets_of. simpl. case_decide as Hr.
  - subst r'. apply list_fmap_alter, Forall_forall. intros o _.
    rewrite list_filter_filter. induction o as [|t o IH]; [done|].
    rewrite filter_cons_False by tauto. done.
  - erewrite (list_fmap_alter _ _ id).
    + by rewrite list_alter_id.
    + apply Forall_forall. intros o _. simpl. rewrite list_filter_filter. apply list_filter_iff.
      intros t. split; [tauto|]. intros ->. done.
Qed.

Lemma targets_of_observe (r r' : Ref) (k : nat) (w : World) :
  targets_of r (with_observers
    (alter (λ o, if bool_decide (r' ∈ o.*1) then o else o ++ [(r', None)]) k) w)
  = if decide (r = r')
    then alter (λ o, match o with [] => [(r, None)] | _ => o end) k (targets_of r w)
    else targets_of r w.
Proof.
  unfold targets_of. simpl. case_decide as Hr.
  - subst r'. apply list_fmap_alter, Forall_forall. intros o _.
    case_bool_decide as Hin.
    + apply list_elem_of_fmap in Hin as ([r1 prev] & -> & Hin).
      assert ((r1, prev) ∈ filter (λ t : Ref * option bool, t.1 = r1) o) as Hf
        by (by apply list_elem_of_filter).
      destruct (filter _ o); [by apply elem_of_nil in Hf | done].
    + rewrite filter_app, filter_cons_True, filter_nil by done.
      assert (filter (λ t : Ref * option bool, t.1 = r) o = []) as ->; [|done].
      destruct (filter _ o) as [|t o'] eqn:Hf; [done|]. exfalso. apply Hin.
      assert (t ∈ filter (λ t : Ref * option bool, t.1 = r) o) as Ht
        by (rewrite Hf; left).
      apply list_elem_of_filter in Ht as [<- Ht].
      by apply list_elem_of_fmap_2.
  - erewrite (list_fmap_alter _ _ id).
    + by rewrite list_alter_id.
    + apply Forall_forall. intros o _. simpl. case_bool_decide; [done|].
      rewrite filter_app, filter_cons_False, filter_nil, app_nil_r; [done|].
      simpl. congruence.
Qed.

Lemma name_at_with_observers (r : Ref) (f : list Observer → list Observer) (w : World) :
  name_at r (with_observers f w) = name_at r w.
Proof. done. Qed.

Lemma opacity_at_with_observers (r : Ref) (f : list Observer → list Observer) (w : World) :
  opacity_at r (with_observers f w) = opacity_at r w.
Proof. done. Qed.

Lemma log_with_observers (f : list Observer → list Observer) (w : World) :
  log (with_observers f w) = log w.
Proof. done. Qed.

Lemma targets_of_style (r r' : Ref) (p v : jsstring) (w : World) :
  targets_of r (with_log (λ l, l ++ [StyleWrite r' p v])
                  (with_document (update_at r' (set_style p v)) w))
  = targets_of r w.
Proof. done. Qed.

Lemma log_style (r' : Ref) (p v : jsstring) (w : World) :
  log (with_log (λ l, l ++ [StyleWrite r' p v])
         (with_document (update_at r' (set_style p v)) w))
  = log w ++ [StyleWrite r' p v].
Proof. done. Qed.

Lemma callback_step_runs (k : nat) (entry : Ref * bool) (w : World) :
  (if entry.2 then
     let element := entry.1 in
     name ← getAttribute element (js "data-animate");
     let animation := or_else name (js "fadeInUp") in
     style_set element (js "animation") (animation ++ animationSuffix) ;;
     unobserve k element
   else mret ()) w
  = (Normal (),
     if entry.2 then
       let text := or_else (name_at entry.1 w) (js "fadeInUp") ++ animationSuffix in
       with_observers (alter (filter (λ t, t.1 ≠ entry.1)) k)
         (with_log (λ l, l ++ [StyleWrite entry.1 (js "animation") text])
            (with_document (update_at entry.1 (set_style (js "animation") text)) w))
     else w).
Proof. by destruct entry as [r []]. Qed.

Lemma alter_clear_twice (k : nat) (T : list Observer) :
  alter (λ _, []) k (alter (λ _, []) k T) = alter (λ _ : Observer, []) k T.
Proof. by rewrite list_alter_alter_eq. Qed.

Lemma observerCallback_view (r : Ref) (es : list (Ref * bool)) (w : World) :
  ∃ w', observerCallback 0 es w = (Normal (), w') ∧
        name_at r w' = name_at r w ∧
        length (observers w') = length (observers w) ∧
        let n := length (filter (λ e, e = (r, true)) es) in
        let text := or_else (name_at r w) (js "fadeInUp") ++ animationSuffix in
        animation_writes r (log w') = animation_writes r (log w) ++ replicate n text ∧
        targets_of r w' = match n with
                          | O => targets_of r w
                          | S _ => alter (λ _, []) 0%nat (targets_of r w)
                          end.
Proof.
  unfold observerCallback. revert w. induction es as [|e es IH]; intros w.
  { exists w. simpl. by rewrite app_nil_r. }
  cbn [forEach]. rewrite run_bind, callback_step_runs.
  match goal with |- context [forEach _ es ?w1] =>
    destruct (IH w1) as (w' & -> & Hname & Hlen & Hlog & Htargets); set (w1' := w1) in * end.
  exists w'. split; [done|]. cbn zeta in *.
  destruct e as [r' []]; simpl in w1'; subst w1'.
  - (* an intersecting entry *)
    rewrite name_at_with_observers, name_at_style in Hname, Hlog.
    rewrite targets_of_unobserve, targets_of_style in Htargets.
    simpl in Hlen. rewrite length_alter in Hlen.
    rewrite log_with_observers, log_style, animation_writes_snoc in Hlog.
    split_and!; try done.
    + destruct (decide (r' = r)) as [->|Hne].
      * rewrite filter_cons_True by done. simpl.
        rewrite bool_decide_eq_true_2 in Hlog by done.
        by rewrite Hlog, <-app_assoc.
      * rewrite filter_cons_False by congruence.
        rewrite bool_decide_eq_false_2 in Hlog by (intros [? _]; done).
        by rewrite Hlog, app_nil_r.
    + destruct (decide (r' = r)) as [->|Hne].
      * rewrite filter_cons_True by done. simpl.
        rewrite decide_True in Htargets by done.
        rewrite Htargets. destruct (length _); [done | apply alter_clear_twice].
      * rewrite filter_cons_False by congruence.
        by rewrite decide_False in Htargets by done.
  - (* an entry that is not intersecting *)
    rewrite filter_cons_False by congruence. done.
Qed.

Lemma filter_reported (r : Ref) (visible : Ref → bool) (o : Observer) :
  filter (λ t, t.1 = r) (reported visible o)
  = reported visible (filter (λ t, t.1 = r) o).
Proof.
  unfold reported. induction o as [|t o IH]; [done|].
  rewrite fmap_cons. destruct (decide (t.1 = r)) as [Ht|Ht].
  - rewrite !filter_cons_True by done. rewrite fmap_cons. by f_equal.
  - by rewrite !filter_cons_False by done.
Qed.

Lemma filter_entries_of (r : Ref) (visible : Ref → bool) (o : Observer) :
  filter (λ e, e = (r, true)) (entries_of visible o)
  = filter (λ e, e = (r, true)) (entries_of visible (filter (λ t, t.1 = r) o)).
Proof.
  unfold entries_of. induction o as [|t o IH]; [done|].
  destruct (decide (t.1 = r)) as [Ht|Ht].
  - rewrite (filter_cons_True (λ t, t.1 = r)) by done. simpl.
    case_bool_decide; [done|].
    destruct (decide ((t.1, visible t.1) = (r, true))).
    + rewrite !filter_cons_True by done. by f_equal.
    + by rewrite !filter_cons_False by done.
  - rewrite (filter_cons_False (λ t, t.1 = r)) by done. simpl.
    case_bool_decide; [done|].
    rewrite filter_cons_False; [done|]. intros [= ? _]. done.
Qed.

Lemma notify_view (r : Ref) (visible : Ref → bool) (w : World) :
  ∃ w', notify visible 0 w = (Normal (), w') ∧
        name_at r w' = name_at r w ∧
        length (observers w') = length (observers w) ∧
        let o := default [] (observers w !! 0%nat) in
        let n := length (filter (λ e, e = (r, true))
                           (entries_of visible (filter (λ t, t.1 = r) o))) in
        let text := or_else (name_at r w) (js "fadeInUp") ++ animationSuffix in
        animation_writes r (log w') = animation_writes r (log w) ++ replicate n text ∧
        targets_of r w' = match n with
                          | O => alter (reported visible) 0%nat (targets_of r w)
                          | S _ => alter (λ _, []) 0%nat (targets_of r w)
                          end.
Proof.
  unfold notify. rewrite run_bind. unfold gets at 1. rewrite run_bind.
  unfold modify at 1.
  set (o := default [] (observers w !! 0%nat)).
  set (w1 := with_observers (alter (reported visible) 0%nat) w).
  assert (match entries_of visible o with
          | [] => mret () : M unit
          | _ :: _ => observerCallback 0 (entries_of visible o)
          end w1 = observerCallback 0 (entries_of visible o) w1) as ->.
  { by destruct (entries_of visible o). }
  destruct (observerCallback_view r (entries_of visible o) w1)
    as (w' & -> & Hname & Hlen & Hlog & Htargets).
  exists w'. split; [done|]. cbn zeta in *.
  rewrite filter_entries_of in Hlog, Htargets.
  assert (targets_of r w1 = alter (reported visible) 0%nat (targets_of r w)) as Hw1.
  { unfold targets_of, w1. simpl. apply list_fmap_alter, Forall_forall.
    intros ? _. apply filter_reported. }
  rewrite Hw1 in Htargets. unfold w1 in Hname, Hlen, Hlog.
  rewrite name_at_with_observers in Hname, Hlog.
  rewrite log_with_observers in Hlog. simpl in Hlen. rewrite length_alter in Hlen.
  split_and!; try done.
  rewrite Htargets.
  match goal with |- match ?n with _ => _ end = _ => destruct n; [done|] end.
  by rewrite list_alter_alter_eq.
Qed.

Lemma targets_single (r : Ref) (w : World) (X : Observer) :
  targets_of r w = [X] →
  length (observers w) = 1%nat ∧
  filter (λ t, t.1 = r) (default [] (observers w !! 0%nat)) = X.
Proof.
  unfold targets_of. destruct (observers w) as [|o [|o' os]]; try done.
  simpl. by intros [= ->].
Qed.

Lemma entries_of_waiting (r : Ref) (visible : Ref → bool) (prev : option bool) :
  prev ≠ Some true →
  length (filter (λ e, e = (r, true)) (entries_of visible [(r, prev)]))
  = if visible r then 1%nat else 0%nat.
Proof.
  intros Hprev. unfold entries_of. simpl. destruct (visible r) eqn:Hv.
  - rewrite bool_decide_eq_false_2 by done. simpl.
    by rewrite filter_cons_True.
  - case_bool_decide; simpl; [done|].
    by rewrite filter_cons_False.
Qed.

Lemma round_view (r : Ref) (visible : Ref → bool) (w : World) (written : list jsstring) :
  waiting r written w ∨ animated r written w →
  ∃ w', intersection_round visible w = (Normal (), w') ∧
        name_at r w' = name_at r w ∧
        ((waiting r written w ∧ visible r = false ∧ waiting r written w') ∨
         (waiting r written w ∧ visible r = true ∧
          animated r (written ++ [or_else (name_at r w) (js "fadeInUp") ++ animationSuffix]) w') ∨
         (animated r written w ∧ animated r written w')).
Proof.
  intros Hstate.
  assert (∃ X, targets_of r w = [X]) as [X HX].
  { destruct Hstate as [(prev & ? & _)|[? _]]; eauto. }
  destruct (targets_single r w X HX) as [Hlen Hfilter].
  unfold intersection_round. rewrite run_bind. unfold gets. rewrite Hlen.
  cbn [seq forEach]. rewrite run_bind.
  destruct (notify_view r visible w) as (w' & -> & Hname & _ & Hlog & Htargets).
  exists w'. split; [done|]. split; [done|]. cbn zeta in *.
  rewrite Hfilter in Hlog, Htargets. rewrite HX in Htargets.
  destruct Hstate as [(prev & HT & Hprev & Hw)|[HT Hw]].
  - rewrite HT in HX. injection HX as <-.
    rewrite entries_of_waiting in Hlog, Htargets by done.
    destruct (visible r) eqn:Hv; simpl in Hlog, Htargets.
    + right; left. split; [by exists prev|]. split; [done|].
      split; [done|]. by rewrite Hlog, Hw.
    + left. split; [by exists prev|]. split; [done|].
      exists (Some false). rewrite Hv in Htargets. rewrite app_nil_r in Hlog.
      split_and!; congruence.
  - right; right. split; [done|]. rewrite HT in HX. injection HX as <-.
    simpl in Hlog, Htargets. rewrite app_nil_r in Hlog. split; congruence.
Qed.

Lemma rounds_view (r : Ref) (vs : list (Ref → bool)) (w : World) (written : list jsstring) :
  waiting r written w ∨ animated r written w →
  ∃ w', rounds vs w = (Normal (), w') ∧
        ((waiting r written w ∧
          animation_writes r (log w')
          = written ++ (if existsb (λ visible, visible r) vs
                        then [or_else (name_at r w) (js "fadeInUp") ++ animationSuffix]
                        else [])) ∨
         (animated r written w ∧ animation_writes r (log w') = written)).
Proof.
  unfold rounds. revert w written. induction vs as [|v vs IH]; intros w written Hstate.
  { exists w. split; [done|]. simpl. rewrite app_nil_r.
    destruct Hstate as [Hw|Hw]; [left|right]; split; try done.
    - by destruct Hw as (? & _ & _ & ?).
    - by destruct Hw. }
  cbn [forEach]. rewrite run_bind.
  destruct (round_view r v w written Hstate) as (w1 & -> & Hname & Hcases).
  destruct Hcases as [(Hw & Hv & Hw1)|[(Hw & Hv & Hw1)|(Hw & Hw1)]].
  - destruct (IH w1 written (or_introl Hw1)) as (w' & -> & [[_ Hlog]|[Ha _]]).
    + exists w'. split; [done|]. left. split; [done|]. simpl.
      by rewrite Hv, Hlog, Hname.
    + exfalso. destruct Hw1 as (? & HT & _), Ha as [HT' _]. congruence.
  - destruct (IH w1 _ (or_intror Hw1)) as (w' & -> & [[Hwait _]|[_ Hlog]]).
    + exfalso. destruct Hw1 as [HT _], Hwait as (? & HT' & _). congruence.
    + exists w'. split; [done|]. left. split; [done|]. simpl. by rewrite Hv.
  - destruct (IH w1 _ (or_intror Hw1)) as (w' & -> & [[Hwait _]|[_ Hlog]]).
    + exfalso. destruct Hw1 as [HT _], Hwait as (? & HT' & _). congruence.
    + exists w'. split; [done|]. by right.
Qed.

Lemma init_step_runs (k : nat) (element : Ref) (w : World) :
  (style_set element (js "opacity") (js "0") ;; observe k element) w
  = (Normal (),
     with_observers
       (alter (λ o, if bool_decide (element ∈ o.*1) then o else o ++ [(element, None)]) k)
       (with_log (λ l, l ++ [StyleWrite element (js "opacity") (js "0")])
          (with_document (update_at element (set_style (js "opacity") (js "0"))) w))).
Proof. reflexivity. Qed.

Lemma init_loop_view (r : Ref) (elements : list Ref) (w : World) :
  targets_of r w = [[]] ∨ targets_of r w = [[(r, None)]] →
  is_Some (element_at (document w) r) →
  ∃ w', forEach (λ element,
          style_set element (js "opacity") (js "0") ;; observe 0 element) elements w
        = (Normal (), w') ∧
        name_at r w' = name_at r w ∧
        animation_writes r (log w') = animation_writes r (log w) ∧
        targets_of r w' = (if decide (r ∈ elements) then [[(r, None)]] else targets_of r w) ∧
        (r ∈ elements ∨ opacity_at r w = Some (js "0") → opacity_at r w' = Some (js "0")).
Proof.
  revert w. induction elements as [|x elements IH]; intros w HT He.
  { exists w. split_and!; try done. intros [?%elem_of_nil|?]; done. }
  cbn [forEach]. rewrite run_bind, init_step_runs.
  match goal with |- context [forEach _ elements ?w1] => set (w1' := w1) end.
  assert (name_at r w1' = name_at r w) as Hname1
    by (unfold w1'; by rewrite name_at_with_observers, name_at_style).
  assert (animation_writes r (log w1') = animation_writes r (log w)) as Hlog1.
  { unfold w1'. rewrite log_with_observers, log_style, animation_writes_snoc.
    rewrite bool_decide_eq_false_2 by (by intros [_ [=]]). apply app_nil_r. }
  assert (targets_of r w1' = if decide (r = x) then [[(r, None)]] else targets_of r w)
    as HT1.
  { unfold w1'. rewrite targets_of_observe, targets_of_style.
    destruct (decide (r = x)); [|done]. by destruct HT as [-> | ->]. }
  assert (is_Some (element_at (document w1') r)) as He1.
  { unfold w1'. simpl. rewrite element_at_update_at. case_decide; [|done].
    by apply fmap_is_Some. }
  assert (opacity_at r w1' = if decide (r = x) then Some (js "0") else opacity_at r w)
    as Hop1.
  { unfold w1'. rewrite opacity_at_with_observers, opacity_at_style.
    destruct (decide (r = x)) as [Hx|Hx].
    - by rewrite bool_decide_eq_true_2.
    - by rewrite !bool_decide_eq_false_2 by tauto. }
  destruct (IH w1') as (w' & -> & Hname & Hlog & Htargets & Hop); [|done|].
  { rewrite HT1. case_decide; [by right | done]. }
  exists w'. split; [done|]. rewrite Hname, Hlog, Htargets, HT1.
  split_and!; try done.
  - destruct (decide (r = x)) as [->|Hne].
    + rewrite (decide_True (P := x ∈ x :: elements)) by left. by case_decide.
    + destruct (decide (r ∈ elements)).
      * by rewrite decide_True by (by right).
      * rewrite decide_False; [done|]. by intros [?|?]%elem_of_cons.
  - intros Hor. apply Hop. rewrite Hop1.
    destruct (decide (r = x)) as [->|Hne]; [by right|].
    destruct Hor as [[?|?]%elem_of_cons|?]; [done|by left|by right].
Qed.

Lemma initializeAnimations_unavailable (w : World) :
  hasIntersectionObserver w = false → initializeAnimations w = (Normal (), w).
Proof.
  intros H. unfold initializeAnimations. rewrite run_bind. unfold gets at 1.
  rewrite run_bind. unfold gets. by rewrite H, andb_false_r.
Qed.

Lemma newObserver_runs (w : World) :
  newObserver w
  = (Normal (length (observers w)), with_observers (λ os, os ++ [[]]) w).
Proof. reflexivity. Qed.

Lemma initializeAnimations_view (r : Ref) (w : World) :
  hasIntersectionObserver w = true → observers w = [] →
  r ∈ querySelectorAll (ByAttribute (js "data-animate")) (document w) →
  ∃ w1, initializeAnimations w = (Normal (), w1) ∧
        name_at r w1 = name_at r w ∧
        opacity_at r w1 = Some (js "0") ∧
        waiting r (animation_writes r (log w)) w1.
Proof.
  intros Hio Hobs Hr. unfold initializeAnimations. rewrite run_bind. unfold gets at 1.
  rewrite run_bind. unfold gets at 1. rewrite Hio, andb_true_r.
  set (elements := querySelectorAll _ _) in *.
  rewrite bool_decide_eq_true_2
    by (destruct elements; [by apply elem_of_nil in Hr | simpl; lia]).
  rewrite run_bind, newObserver_runs, Hobs. cbn [length].
  set (w0 := with_observers (λ os, os ++ [[]]) w).
  assert (is_Some (element_at (document w) r)) as He.
  { apply elem_of_refs. unfold elements, querySelectorAll in Hr.
    by apply list_elem_of_filter in Hr as [_ ?]. }
  destruct (init_loop_view r elements w0) as (w1 & -> & Hname & Hlog & HT & Hop).
  { left. unfold targets_of, w0. simpl. by rewrite Hobs. }
  { done. }
  exists w1. rewrite decide_True in HT by done. split_and!; try done.
  - apply Hop. by left.
  - exists None. by split_and!.
Qed.

(** C8: where the browser has no [IntersectionObserver],
    [initializeAnimations] changes nothing.  Where it has, on a freshly
    loaded page, every element with [data-animate] has opacity ["0"] right
    after [initializeAnimations], and whatever the rounds of visibility
    that follow, its [style.animation] is written at most once: not at
    all while it has not been visible enough, and once it has been,
    exactly once, with its requested name (or [fadeInUp]) followed by
    [0.6s ease forwards]; leaving and coming back writes nothing more. *)
Theorem initializeAnimations_animates_once (w : World) (vs : list (Ref → bool)) :
  (hasIntersectionObserver w = false → initializeAnimations w = (Normal (), w)) ∧
  (hasIntersectionObserver w = true → observers w = [] →
   ∀ r, r ∈ querySelectorAll (ByAttribute (js "data-animate")) (document w) →
     let w1 := (initializeAnimations w).2 in
     let w2 := (rounds vs w1).2 in
     (initializeAnimations w).1 = Normal () ∧
     (rounds vs w1).1 = Normal () ∧
     opacity_at r w1 = Some (js "0") ∧
     animation_writes r (log w1) = animation_writes r (log w) ∧
     animation_writes r (log w2)
     = animation_writes r (log w)
       ++ (if existsb (λ visible, visible r) vs
           then [requested_animation (document w) r] else [])).
Proof.
  split; [apply initializeAnimations_unavailable|].
  intros Hio Hobs r Hr.
  destruct (initializeAnimations_view r w Hio Hobs Hr) as (w1 & -> & Hname & Hop & Hw1).
  cbn [fst snd].
  destruct (rounds_view r vs w1 _ (or_introl Hw1)) as (w2 & -> & Hcases).
  cbn [fst snd]. split_and!; try done.
  - by destruct Hw1 as (? & _ & _ & ?).
  - destruct Hcases as [[_ Hlog]|[Ha _]].
    + rewrite Hlog, Hname. done.
    + exfalso. destruct Hw1 as (? & HT & _), Ha as [HT' _]. congruence.
Qed.

Lemma initializeAnimations_animates_once_witness :
  let w1 := (initializeAnimations page_with_animations).2 in
  opacity_at (RNode 0) w1 = Some (js "0") ∧
  animation_writes (RNode 0) (log (rounds sample_rounds w1).2)
  = [js "slideIn 0.6s ease forwards"].
Proof.
  intros w1.
  assert (RNode 0 ∈ querySelectorAll (ByAttribute (js "data-animate"))
                      (document page_with_animations)) as Hr
    by (vm_compute; constructor).
  destruct (proj2 (initializeAnimations_animates_once page_with_animations sample_rounds)
              eq_refl eq_refl (RNode 0) Hr) as (_ & _ & Hop & _ & Hlog).
  split; [exact Hop | exact Hlog].
Defined.

(** * Further properties *)

(** ** Escaping *)

Lemma escape_app (a b : jsstring) : escape (a ++ b) = escape a ++ escape b.
Proof. unfold escape. apply bind_app. Qed.

Lemma escape_unit_head (c : N) :
  (special c ∧ ∃ rest, escape_unit c = amp :: rest ∧ (3 ≤ length rest)%nat) ∨
  (¬ special c ∧ c ≠ amp ∧ escape_unit c = [c]).
Proof.
  unfold special.
  destruct (escape_unit_cases c) as [[-> ->]|[[-> ->]|[[-> ->]|[[-> ->]|(?&?&?&?&->)]]]].
  1: left; split; [tauto|]; exists (js "amp;").
  2: left; split; [tauto|]; exists (js "nbsp;").
  3: left; split; [tauto|]; exists (js "lt;").
  4: left; split; [tauto|]; exists (js "gt;").
  1-4: split; [reflexivity | vm_compute; lia].
  right. split; [tauto | done].
Qed.

Lemma escape_injective (a b : jsstring) : escape a = escape b → a = b.
Proof.
  revert b. induction a as [|c a IH]; intros [|d b] H; try done.
  - rewrite escape_cons in H.
    destruct (escape_unit_head d) as [(_ & ? & Hd & _)|(_ & _ & Hd)];
      rewrite Hd in H; simpl in H; discriminate H.
  - rewrite escape_cons in H.
    destruct (escape_unit_head c) as [(_ & ? & Hc & _)|(_ & _ & Hc)];
      rewrite Hc in H; simpl in H; discriminate H.
  - rewrite !escape_cons in H.
    destruct (escape_unit_cases c) as [[-> Hc]|[[-> Hc]|[[-> Hc]|[[-> Hc]|(?&?&?&?&Hc)]]]];
    destruct (escape_unit_cases d) as [[-> Hd]|[[-> Hd]|[[-> Hd]|[[-> Hd]|(?&?&?&?&Hd)]]]];
    rewrite ?Hc, ?Hd in H; vm_compute js in H; simpl in H;
    try discriminate H; simplify_eq; try done; f_equal; by apply IH.
Qed.

Lemma escape_length (s : jsstring) :
  (length s ≤ length (escape s))%nat ∧
  (Exists special s → length s < length (escape s))%nat.
Proof.
  induction s as [|c s [IH1 IH2]]; [split; [done | by intros ?%Exists_nil]|].
  rewrite escape_cons, length_app. simpl.
  destruct (escape_unit_head c) as [(Hc & rest & -> & ?)|(Hc & _ & ->)]; simpl.
  - split; [lia|]. intros _. lia.
  - split; [lia|]. intros [?|?]%Exists_cons; [done|]. specialize (IH2 ltac:(done)). lia.
Qed.

Lemma escape_plain (s : jsstring) : Forall (λ c, ¬ special c) s → escape s = s.
Proof.
  induction 1 as [|c s Hc _ IH]; [done|]. rewrite escape_cons, IH.
  destruct (escape_unit_head c) as [(? & _)|(_ & _ & ->)]; done.
Qed.

(** X1: [sanitizeHTML] never maps two different texts to the same
    markup. *)
Theorem sanitizeHTML_injective (a b : jsstring) :
  sanitizeHTML a = sanitizeHTML b → a = b.
Proof. apply escape_injective. Qed.

Lemma sanitizeHTML_injective_witness : js "a<b" = js "a<b".
Proof. apply sanitizeHTML_injective. reflexivity. Defined.

(** X2: [sanitizeHTML] returns its input unchanged exactly when the
    input holds none of [&], [<], [>] and the no-break space; otherwise
    the result is strictly longer.  So escaping a second time changes the
    text again exactly when the first time did: the function
    double-escapes. *)
Theorem sanitizeHTML_unchanged_iff_plain (s : jsstring) :
  (sanitizeHTML s = s ↔ Forall (λ c, ¬ special c) s) ∧
  (Exists special s → (length s < length (sanitizeHTML s))%nat) ∧
  (sanitizeHTML (sanitizeHTML s) = sanitizeHTML s ↔ sanitizeHTML s = s).
Proof.
  change (sanitizeHTML (sanitizeHTML s)) with (escape (escape s)).
  change (sanitizeHTML s) with (escape s). split_and!.
  - split; [|apply escape_plain].
    intros H. apply Forall_forall. intros c Hc Hs.
    assert (Exists special s) as He by (apply Exists_exists; eauto).
    apply escape_length in He. rewrite H in He. lia.
  - apply escape_length.
  - split; [apply escape_injective | intros H; by rewrite !H].
Qed.

Lemma sanitizeHTML_unchanged_iff_plain_witness :
  (length (js "a&b") < length (sanitizeHTML (js "a&b")))%nat.
Proof.
  apply (proj1 (proj2 (sanitizeHTML_unchanged_iff_plain (js "a&b")))).
  vm_compute js. apply Exists_cons_tl, Exists_cons_hd. by left.
Defined.

(** X3: [sanitizeHTML] leaves quotes alone: a double or single quote is
    in the result exactly when it is in the input, so the result is not
    fit for an attribute value. *)
Theorem sanitizeHTML_keeps_quotes (s : jsstring) (q : N) :
  q = quot ∨ q = apos → (q ∈ sanitizeHTML s ↔ q ∈ s).
Proof.
  intros Hq. change (sanitizeHTML s) with (escape s).
  induction s as [|c s IH]; [done|].
  rewrite escape_cons, elem_of_app, elem_of_cons, IH.
  assert (q ∈ escape_unit c ↔ q = c) as ->; [|done].
  destruct (escape_unit_cases c) as [[-> ->]|[[-> ->]|[[-> ->]|[[-> ->]|(?&?&?&?&->)]]]].
  5: by rewrite list_elem_of_singleton.
  all: vm_compute js; split;
    [ intros H; destruct Hq as [-> | ->];
      repeat (apply elem_of_cons in H as [H|H]; [discriminate H|]);
      by apply elem_of_nil in H
    | intros ->; destruct Hq as [Hq|Hq]; discriminate Hq ].
Qed.

Lemma sanitizeHTML_keeps_quotes_witness :
  quot ∈ sanitizeHTML (js "<a href=x>") ↔ quot ∈ js "<a href=x>".
Proof. apply sanitizeHTML_keeps_quotes. by left. Defined.

(** ** withErrorHandling *)

(** X4: when [fn] is not a function the call [fn(...args)] throws a
    [TypeError] inside the [try].  For [undefined] and [null] the
    [catch] block then throws itself, on [fn.name]: the wrapper raises a
    [TypeError], logs nothing and never looks at the fallback.  For a
    boolean, a number or a string the [TypeError] is logged with the name
    [undefined], for an object with whatever its [name] property holds,
    and the fallback is substituted as usual. *)
Theorem withErrorHandling_not_a_function
    (apply_code : nat → list Value → Completion Value)
    (fn fallback : Value) (args : list Value) (w : World) :
  is_function fn = false →
  let wrapper := withErrorHandling apply_code fn fallback args in
  let substituted :=
    if is_function (fallback_parameter fallback)
    then call apply_code (fallback_parameter fallback) args
    else Normal (fallback_parameter fallback) in
  let logged name := with_log (λ l, l ++ [ConsoleError name TypeError]) w in
  match fn with
  | VUndefined | VNull => wrapper w = (Abrupt TypeError, w)
  | VObject name => wrapper w = (substituted, logged name)
  | _ => wrapper w = (substituted, logged VUndefined)
  end.
Proof. intros Hfn. destruct fn; try done; by destruct fallback. Qed.

Lemma withErrorHandling_not_a_function_witness :
  withErrorHandling sample_code (VObject (VString (js "x"))) (VNumber 7) []
    page_with_navigation
  = (Normal (VNumber 7),
     with_log (λ l, l ++ [ConsoleError (VString (js "x")) TypeError]) page_with_navigation).
Proof.
  exact (withErrorHandling_not_a_function sample_code (VObject (VString (js "x")))
           (VNumber 7) [] page_with_navigation eq_refl).
Defined.

(** ** Clipboard *)

(** X5: where the clipboard API exists, [copyToClipboard] never throws,
    its promise is always fulfilled, and the document and the storage are
    afterwards exactly what they were: the temporary textarea is gone.
    The promise is fulfilled with [false] only when the write was
    rejected and [execCommand] threw; a [false] returned by
    [execCommand] still gives [true].  When the write resolves nothing
    at all is touched. *)
Theorem copyToClipboard_leaves_document (text : jsstring) (w : World) :
  clipboard w ≠ None →
  ∃ b w', copyToClipboard text w = (Normal (Fulfilled b), w') ∧
          document w' = document w ∧
          localStorage w' = localStorage w ∧
          (b = false ↔ clipboard w = Some WriteRejects ∧
                        ∃ e, execCommandCopy w = Abrupt e) ∧
          (clipboard w = Some WriteResolves → w' = w).
Proof.
  intros Hapi. pose proof (copyToClipboard_with_api text w) as H.
  destruct (clipboard w) as [[]|] eqn:Hc; [| |done].
  - exists true, w. split_and!; try done. split; [done|]. by intros [[=] _].
  - cbn zeta in H. rewrite H. eexists _, _. split; [reflexivity|].
    split_and!; try done.
    destruct (execCommandCopy w) as [v|e]; split; try done.
    + by intros [_ [? [=]]].
    + intros _. eauto.
Qed.

Lemma copyToClipboard_leaves_document_witness :
  ∃ b w', copyToClipboard (js "x") page_with_navigation = (Normal (Fulfilled b), w') ∧
          document w' = document page_with_navigation ∧
          localStorage w' = localStorage page_with_navigation ∧
          (b = false ↔ clipboard page_with_navigation = Some WriteRejects ∧
                        ∃ e, execCommandCopy page_with_navigation = Abrupt e) ∧
          (clipboard page_with_navigation = Some WriteResolves → w' = page_with_navigation).
Proof. apply copyToClipboard_leaves_document. discriminate. Defined.

(** ** Theme *)

(** X6: a click handled by the theme listener always flips the
    [light-theme] class of the body, and a second click brings the class
    back.  Where the write to the storage goes through, the click ends
    normally, ["light"] or ["dark"] is stored under ["theme"] to match
    the class, and the toggle shows the moon when the page is now light
    and the sun when it is dark.  Where it does not (storage blocked, or
    no room for the item), the click throws after the class was flipped:
    nothing is stored and the icon stays as it was. *)
Theorem themeToggleClick_flips (w : World) :
  let light (w : World) := contains (js "light-theme") (classList (body (document w))) in
  let w' := (themeToggleClick w).2 in
  let v := if light w' then js "light" else js "dark" in
  light w' = negb (light w) ∧
  light (themeToggleClick w').2 = light w ∧
  (stores (js "theme") v w = true →
   (themeToggleClick w).1 = Normal () ∧
   localStorage w' = <[js "theme" := v]> (localStorage w) ∧
   ∀ t, getElementById (js "theme-toggle") (document w) = Some t →
        textContent <$> element_at (document w') t
        = Some (if light w' then moon else sun)) ∧
  (stores (js "theme") v w = false →
   themeToggleClick w
   = (Abrupt (match storageAccess w with
              | StorageBlocked => SecurityError
              | StorageAllowed _ => QuotaExceededError
              end),
      with_document
        (update_at RBody (λ e, set_classList (toggle (js "light-theme") (classList e)) e))
        w)).
Proof.
  intros light w' v. subst v w'. unfold light. rewrite !themeToggleClick_light.
  split_and!.
  - done.
  - apply negb_involutive.
  - intros Hs. rewrite themeToggleClick_exact, Hs. cbn [fst snd]. split_and!.
    + done.
    + by destruct (getElementById _ _).
    + intros t Ht. rewrite Ht. cbn [document with_document with_localStorage].
      apply getElementById_Some in Ht as (e & He & _).
      apply textContent_after_set. rewrite element_at_update_at.
      case_decide; rewrite He; by eexists.
  - intros Hs. by rewrite themeToggleClick_exact, Hs.
Qed.

Lemma themeToggleClick_flips_witness :
  themeToggleClick page_with_full_storage
  = (Abrupt QuotaExceededError,
     with_document
       (update_at RBody (λ e, set_classList (toggle (js "light-theme") (classList e)) e))
       page_with_full_storage).
Proof.
  refine (proj2 (proj2 (proj2 (themeToggleClick_flips page_with_full_storage))) _).
  reflexivity.
Defined.

Lemma initializeTheme_frame (w : World) :
  (initializeTheme w).1
  = match getElementById (js "theme-toggle") (document w), storageAccess w with
    | Some _, StorageBlocked => Abrupt SecurityError
    | _, _ => Normal ()
    end ∧
  localStorage (initializeTheme w).2 = localStorage w ∧
  storageAccess (initializeTheme w).2 = storageAccess w ∧
  listeners (initializeTheme w).2
  = listeners w ++ match getElementById (js "theme-toggle") (document w) with
                   | Some t => [(t, ThemeToggleClick)]
                   | None => []
                   end.
Proof.
  rewrite initializeTheme_exact.
  destruct (getElementById _ _); [destruct (storageAccess w) eqn:Ha; [|case_bool_decide]|];
    cbn [fst snd]; split_and!; try done.
  by rewrite app_nil_r.
Qed.


(** X7: [initializeTheme] never writes the storage and takes no class
    away.  On a page without the theme toggle it does nothing.  On a
    page with the toggle it first registers one click listener on it,
    every time it runs; then, where the storage is blocked, it throws a
    [SecurityError] and the document stays as it was; where the storage
    can be read, it ends normally, adds [light-theme] to the body and
    shows the moon on the toggle when ["light"] is stored, and leaves the
    document as it is with anything else stored. *)
Theorem initializeTheme_restores (w : World) :
  let w' := (initializeTheme w).2 in
  let toggle := getElementById (js "theme-toggle") (document w) in
  let saved := localStorage w !! js "theme" in
  (initializeTheme w).1
  = match toggle, storageAccess w with
    | Some _, StorageBlocked => Abrupt SecurityError
    | _, _ => Normal ()
    end ∧
  localStorage w' = localStorage w ∧
  (∀ c, c ∈ classList (body (document w'))
        ↔ c ∈ classList (body (document w))
          ∨ (c = js "light-theme" ∧ is_Some toggle ∧ saved = Some (js "light") ∧
             storageAccess w ≠ StorageBlocked)) ∧
  (∀ t, toggle = Some t → saved = Some (js "light") → storageAccess w ≠ StorageBlocked →
        textContent <$> element_at (document w') t = Some moon) ∧
  (saved ≠ Some (js "light") ∨ storageAccess w = StorageBlocked → document w' = document w) ∧
  listeners w'
  = listeners w ++ match toggle with Some t => [(t, ThemeToggleClick)] | None => [] end.
Proof.
  intros w' toggle saved.
  destruct (initializeTheme_frame w) as (Hr & Hs & _ & Hl).
  split_and!; [done | done | | | | done]; subst w'; rewrite initializeTheme_exact;
    subst toggle saved; destruct (getElementById _ _) as [t|] eqn:Ht; cbn zeta.
  - destruct (storageAccess w) eqn:Ha; cbn [snd].
    { intros c. split; [eauto | intros [?|(_ & _ & _ & ?)]; done]. }
    case_bool_decide as Hsaved.
    + intros c. cbn [document with_document with_listeners].
      rewrite body_classList_update_at by done. simpl. rewrite elem_of_add.
      split; [intros [->|?]; eauto 6 | intros [?|(-> & _)]; eauto].
    + intros c. split; [eauto | intros [?|(_ & _ & ? & _)]; done].
  - intros c. split; [eauto | intros [?|(_ & [? [=]] & _)]; done].
  - intros ? [= <-] Hsaved Ha. destruct (storageAccess w); [done|]. cbn [snd].
    rewrite bool_decide_eq_true_2 by done.
    cbn [document with_document with_listeners].
    apply getElementById_Some in Ht as (e & He & _).
    apply textContent_after_set. rewrite element_at_update_at.
    case_decide; rewrite He; by eexists.
  - done.
  - intros H. destruct (storageAccess w); [done|]. cbn [snd].
    destruct H as [H|H]; [|done]. by rewrite bool_decide_eq_false_2.
  - done.
Qed.

Lemma initializeTheme_restores_witness :
  document (initializeTheme page_with_blocked_storage).2
  = document page_with_blocked_storage.
Proof.
  refine (proj1 (proj2 (proj2 (proj2 (proj2
            (initializeTheme_restores page_with_blocked_storage))))) _).
  by right.
Defined.

(** X8: the theme survives a change of page.  Whatever was clicked on a
    page with the toggle whose storage has room for the theme, the next
    page that has the toggle (its body without the class in the markup),
    can read the storage and sees the same items comes up in the theme
    the first page was left in. *)
Theorem theme_restored_on_next_page (wA wB : World) (rs : list Ref) :
  let left_at := clicks rs (initializeTheme wA).2 in
  is_Some (getElementById (js "theme-toggle") (document wA)) →
  contains (js "light-theme") (classList (body (document wA))) = false →
  theme_storable wA = true →
  is_Some (getElementById (js "theme-toggle") (document wB)) →
  contains (js "light-theme") (classList (body (document wB))) = false →
  storageAccess wB ≠ StorageBlocked →
  localStorage wB = localStorage left_at →
  contains (js "light-theme") (classList (body (document (initializeTheme wB).2)))
  = contains (js "light-theme") (classList (body (document left_at))).
Proof.
  intros left_at HtA HbA HsA HtB HbB HaB Hstore.
  destruct (initializeTheme_storable wA HtA HbA HsA) as [HsA' HA'].
  destruct (clicks_agree rs _ HsA' HA') as [_ HA].
  pose proof (initializeTheme_agrees wB HtB HbB HaB) as HB.
  unfold theme_agrees in HA, HB. fold left_at in HA.
  rewrite (proj1 (proj2 (initializeTheme_frame wB))), Hstore in HB.
  destruct (contains _ (classList (body (document (initializeTheme wB).2)))),
           (contains _ (classList (body (document left_at)))); try done.
  - symmetry. apply HA, HB. done.
  - apply HB, HA. done.
Qed.

Lemma theme_restored_on_next_page_witness :
  contains (js "light-theme")
    (classList (body (document (initializeTheme next_page_with_theme_toggle).2)))
  = contains (js "light-theme")
      (classList (body (document (clicks [RNode 0] (initializeTheme page_with_theme_toggle).2)))).
Proof.
  apply (theme_restored_on_next_page page_with_theme_toggle next_page_with_theme_toggle
           [RNode 0]).
  - exists (RNode 0). by vm_compute.
  - by vm_compute.
  - by vm_compute.
  - exists (RNode 1). by vm_compute.
  - by vm_compute.
  - discriminate.
  - by vm_compute.
Defined.

(** ** Navigation *)

Lemma document_ext (d d' : Document) :
  (∀ r, element_at d r = element_at d' r) → d = d'.
Proof.
  intros H. destruct d as [b ns], d' as [b' ns']. f_equal.
  - specialize (H RBody). simpl in H. congruence.
  - apply list_eq. intros i. apply (H (RNode i)).
Qed.

Lemma element_at_foldl_marked (page : jsstring) (links : list Ref) (d : Document) (r : Ref) :
  element_at (foldl (λ d l, update_at l (marked page) d) d links) r
  = if decide (r ∈ links) then marked page <$> element_at d r else element_at d r.
Proof.
  case_decide.
  - by apply foldl_update_present; [apply marked_idemp|].
  - by apply foldl_update_absent.
Qed.

Lemma matches_marked (page : jsstring) (sel : Selector) (e : Element) :
  sel ≠ ByClass (js "active") → matches sel (marked page e) = matches sel e.
Proof.
  intros Hsel. destruct sel as [c|a]; [|done]. cbn [matches].
  assert (c ≠ js "active") as Hc by congruence.
  apply Bool.eq_true_iff_eq. rewrite !contains_true. by apply marked_other.
Qed.

Lemma lookups_foldl_marked (page : jsstring) (links : list Ref) (d : Document) :
  let d' := foldl (λ d l, update_at l (marked page) d) d links in
  (∀ i, getElementById i d' = getElementById i d) ∧
  (∀ sel, sel ≠ ByClass (js "active") → querySelectorAll sel d' = querySelectorAll sel d).
Proof.
  revert d. induction links as [|l links IH]; intros d; [done|]. simpl.
  destruct (IH (update_at l (marked page) d)) as [Hid Hsel]. split.
  - intros i. by rewrite Hid, getElementById_update_at.
  - intros sel ?. rewrite Hsel by done. apply querySelectorAll_update_at.
    intros e. by apply matches_marked.
Qed.

Lemma initializeNavigation_exact (w : World) :
  initializeNavigation w
  = (Normal (),
     with_listeners
       (λ ls, ls ++ match getElementById (js "mobile-nav-toggle") (document w) with
                    | Some t => [(t, MobileNavToggleClick)]
                    | None => []
                    end)
       (with_document
          (λ d, foldl (λ d l, update_at l (marked (currentPage (pathname w))) d) d
                  (querySelectorAll (ByClass (js "nav-link")) (document w))) w)).
Proof.
  unfold initializeNavigation.
  rewrite run_bind. unfold gets at 1. rewrite run_bind. unfold gets at 1.
  rewrite run_bind.
  rewrite (forEach_modify _
    (λ l, with_document (update_at l (marked (currentPage (pathname w)))))) by
    (intros; apply mark_step).
  rewrite foldl_with_document, run_bind. unfold gets.
  cbn [document with_document].
  rewrite (proj1 (lookups_foldl_marked _ _ _)).
  destruct (getElementById _ _); [done|].
  cbn [mret M_ret]. unfold with_listeners. simpl. by rewrite app_nil_r.
Qed.

(** X9: [initializeNavigation] never throws and touches nothing but the
    class [active] of the navigation links.  Every element keeps its
    attributes, style, text and every other class; an element that is
    not a navigation link is left exactly as it is; storage, observers
    and log are unchanged; and one click listener is added on the
    mobile-nav toggle when the page has one. *)
Theorem initializeNavigation_touches_only_active (w : World) :
  let w' := (initializeNavigation w).2 in
  (initializeNavigation w).1 = Normal () ∧
  localStorage w' = localStorage w ∧ observers w' = observers w ∧ log w' = log w ∧
  listeners w'
  = listeners w ++ match getElementById (js "mobile-nav-toggle") (document w) with
                   | Some t => [(t, MobileNavToggleClick)]
                   | None => []
                   end ∧
  (∀ r, element_at (document w) r = None → element_at (document w') r = None) ∧
  (∀ r e, element_at (document w) r = Some e →
     ∃ e', element_at (document w') r = Some e' ∧
           attributes e' = attributes e ∧ style e' = style e ∧
           textContent e' = textContent e ∧ value e' = value e ∧
           (∀ c, c ≠ js "active" → c ∈ classList e' ↔ c ∈ classList e) ∧
           (matches (ByClass (js "nav-link")) e = false → e' = e)).
Proof.
  intros w'. subst w'. rewrite initializeNavigation_exact. cbn [fst snd].
  split_and!; try done.
  - intros r Hr. cbn [document with_document with_listeners].
    rewrite element_at_foldl_marked, Hr. by case_decide.
  - intros r e He. cbn [document with_document with_listeners].
    rewrite element_at_foldl_marked, He. case_decide as Hr.
    + exists (marked (currentPage (pathname w)) e). split_and!; try done.
      * intros c Hc. by apply marked_other.
      * intros Hm. apply list_elem_of_filter in Hr as [Hr _].
        unfold selects in Hr. rewrite He in Hr. congruence.
    + exists e. by split_and!.
Qed.

Lemma initializeNavigation_touches_only_active_witness :
  ∃ e', element_at (document (initializeNavigation page_with_navigation).2) (RNode 0) = Some e' ∧
        attributes e' = {[ js "href" := js "index.html" ]} ∧
        style e' = ∅.
Proof.
  destruct (initializeNavigation_touches_only_active page_with_navigation)
    as (_ & _ & _ & _ & _ & _ & H).
  destruct (H (RNode 0) _ eq_refl) as (e' & He' & Ha & Hs & _).
  exists e'. by split_and!.
Defined.

(** X10: running [initializeNavigation] a second time leaves the
    document as the first run left it, but registers the click listener
    of the mobile-nav toggle once more. *)
Theorem initializeNavigation_twice (w : World) :
  let w1 := (initializeNavigation w).2 in
  let w2 := (initializeNavigation w1).2 in
  let listener := match getElementById (js "mobile-nav-toggle") (document w) with
                  | Some t => [(t, MobileNavToggleClick)]
                  | None => []
                  end in
  document w2 = document w1 ∧
  listeners w1 = listeners w ++ listener ∧
  listeners w2 = listeners w ++ listener ++ listener.
Proof.
  intros w1 w2 listener. subst w2 w1. rewrite !initializeNavigation_exact.
  cbn [snd document pathname listeners with_document with_listeners].
  set (page := currentPage (pathname w)).
  set (links := querySelectorAll (ByClass (js "nav-link")) (document w)).
  destruct (lookups_foldl_marked page links (document w)) as [Hid Hsel].
  cbn zeta in Hid, Hsel. rewrite Hid, Hsel by done. fold links.
  split_and!; [|done|by rewrite <-app_assoc].
  apply document_ext. intros r. rewrite !element_at_foldl_marked.
  case_decide; [|done].
  destruct (element_at (document w) r); simpl; by rewrite ?marked_idemp.
Qed.

Lemma mobileNavToggleClick_exact (w : World) (c : Ref) :
  querySelector (ByClass (js "nav-links")) (document w) = Some c →
  mobileNavToggleClick w
  = (Normal (),
     with_document
       (update_at c (λ e, set_classList (toggle (js "mobile-active") (classList e)) e)) w).
Proof.
  intros H. unfold mobileNavToggleClick. rewrite run_bind. unfold gets. by rewrite H.
Qed.

Lemma nav_links_not_mobile_active : js "nav-links" ≠ js "mobile-active".
Proof. discriminate. Qed.

(** X11: on a page with a [.nav-links] container a click handled by the
    mobile-nav listener never throws.  It flips the class
    [mobile-active] on the first such container in document order and
    changes nothing else: the container keeps its attributes and every
    other class, every other element is left as it is, and the same
    container is found by the next click.  After a second click every
    element carries the classes it carried before the first. *)
Theorem mobileNavToggleClick_flips (w : World) (c : Ref) :
  querySelector (ByClass (js "nav-links")) (document w) = Some c →
  let classes (w : World) (r : Ref) := default [] (classList <$> element_at (document w) r) in
  let w' := (mobileNavToggleClick w).2 in
  let w'' := (mobileNavToggleClick w').2 in
  (mobileNavToggleClick w).1 = Normal () ∧
  (js "mobile-active" ∈ classes w' c ↔ js "mobile-active" ∉ classes w c) ∧
  (∀ k, k ≠ js "mobile-active" → k ∈ classes w' c ↔ k ∈ classes w c) ∧
  attributes <$> element_at (document w') c = attributes <$> element_at (document w) c ∧
  (∀ r, r ≠ c → element_at (document w') r = element_at (document w) r) ∧
  querySelector (ByClass (js "nav-links")) (document w') = Some c ∧
  (∀ r k, k ∈ classes w'' r ↔ k ∈ classes w r).
Proof.
  intros Hc classes w' w''.
  set (f := λ e, set_classList (toggle (js "mobile-active") (classList e)) e).
  assert (∀ w0, querySelector (ByClass (js "nav-links")) (document w0) = Some c →
            (mobileNavToggleClick w0).1 = Normal () ∧
            document (mobileNavToggleClick w0).2 = update_at c f (document w0) ∧
            querySelector (ByClass (js "nav-links")) (document (mobileNavToggleClick w0).2)
            = Some c) as Hstep.
  { intros w0 H0. rewrite (mobileNavToggleClick_exact w0 c H0). cbn [fst snd].
    split_and!; try done. cbn [document with_document].
    unfold querySelector. rewrite querySelectorAll_update_at; [done|].
    intros e. simpl. apply Bool.eq_true_iff_eq. rewrite !contains_true.
    apply elem_of_toggle_ne, nav_links_not_mobile_active. }
  destruct (Hstep w Hc) as (Hn & Hd & Hq). fold w' in Hd, Hq.
  destruct (Hstep w' Hq) as (_ & Hd' & _). fold w'' in Hd'.
  destruct (querySelector_Some _ _ _ Hc) as (e & He & _).
  assert (∀ r, classes w' r = if decide (r = c) then toggle (js "mobile-active") (classes w r)
                              else classes w r) as Hcl.
  { intros r. unfold classes. rewrite Hd, element_at_update_at.
    destruct (decide (r = c)) as [->|]; [|done]. by rewrite He. }
  assert (∀ r, classes w'' r = if decide (r = c) then toggle (js "mobile-active") (classes w' r)
                               else classes w' r) as Hcl'.
  { intros r. unfold classes. rewrite Hd', element_at_update_at.
    destruct (decide (r = c)) as [->|]; [|done].
    by rewrite Hd, element_at_update_at, decide_True, He. }
  split_and!; try done.
  - rewrite Hcl, decide_True by done. apply elem_of_toggle_eq.
  - intros k Hk. rewrite Hcl, decide_True by done. by apply elem_of_toggle_ne.
  - rewrite Hd, element_at_update_at, decide_True, He by done. done.
  - intros r Hr. by rewrite Hd, element_at_update_at, decide_False.
  - intros r k. rewrite Hcl', Hcl. case_decide; [|done].
    destruct (decide (k = js "mobile-active")) as [->|Hk].
    + rewrite !elem_of_toggle_eq. destruct (decide (js "mobile-active" ∈ classes w r)); tauto.
    + by rewrite !elem_of_toggle_ne.
Qed.

Lemma mobileNavToggleClick_flips_witness :
  js "mobile-active"
  ∈ default [] (classList <$>
      element_at (document (mobileNavToggleClick next_page_with_theme_toggle).2) (RNode 0)).
Proof.
  apply (proj1 (proj2 (mobileNavToggleClick_flips next_page_with_theme_toggle (RNode 0)
                         eq_refl))).
  vm_compute. intros H. inversion H as [|? ? ? H']. inversion H'.
Defined.

(** ** debounce *)


Section DebounceTrace.
Variable apply_code : nat → list Value → Completion Value.
Variables (name : jsstring) (code : nat) (wait : Z).

Let func := VFunction name code.
Let delay := timer_delay wait.

Lemma first_call_arms_after (b : bool) (t0 : Z) (c : Z * list Value) :
  t0 ≤ c.1 →
  armed_after delay c.1 c.2 [] [] (debounced_at apply_code func wait b c (debounce t0)).2.
Proof.
  intros ?. unfold debounced_at. rewrite arrive_idle by done.
  exists 0%nat. simpl. rewrite !Z.max_r by lia. done.
Qed.

Lemma fired_state (t : Z) (args : list Value) (done : list (Z * list Value))
    (errors : list Value) (l : Debounced) :
  armed_after delay t args done errors l →
  ∃ t1 l2,
    timers l = [t1] ∧ deadline t1 = t + delay ∧
    l2 = later apply_code func (callback t1)
           (clearTimeout (Some (timer_id t1)) (set_now (Z.max (now l) (deadline t1)) l)) ∧
    now l2 = t + delay ∧ timers l2 = [] ∧
    invocations l2 = done ++ [(t + delay, args)] ∧
    uncaught l2 = errors ++ raised apply_code func [(t + delay, args)].
Proof.
  intros (id & Hnow & Htimers & Hclosure & Hinv & Herr).
  eexists _, _. split; [exact Htimers|]. split; [done|]. split; [reflexivity|].
  unfold later, invoke, raised. simpl. rewrite Hclosure. simpl.
  rewrite Htimers, Hnow, Hinv, Herr. simpl.
  pose proof (timer_delay_nonneg wait).
  rewrite (Z.max_r t (t + delay)) by (unfold delay; lia).
  rewrite filter_cons_False by (by intros []).
  destruct (apply_code code args); simpl; rewrite ?app_nil_r; by split_and!.
Qed.

Lemma armed_after_fires (t T : Z) (args : list Value) (done : list (Z * list Value))
    (errors : list Value) (l : Debounced) :
  armed_after delay t args done errors l → t + delay ≤ T →
  let l' := advance (later apply_code func) T l in
  now l' = T ∧ timers l' = [] ∧
  invocations l' = done ++ [(t + delay, args)] ∧
  uncaught l' = errors ++ raised apply_code func [(t + delay, args)].
Proof.
  intros Hl ?.
  destruct (fired_state _ _ _ _ _ Hl) as (t1 & l2 & Ht & Hd & El2 & Hnow & Htimers & Hinv & Herr).
  cbn zeta. rewrite (advance_single_due _ _ _ _ Ht) by lia. cbn zeta. rewrite <-El2.
  simpl. rewrite Hnow. split_and!; [lia | done..].
Qed.





End DebounceTrace.



Lemma tidy_run_until (apply_code : nat → list Value → Completion Value) (func : Value)
    (horizon T : Z) (l : Debounced) :
  tidy l → tidy (run_until (later apply_code func) horizon T l).
Proof.
  intros [Hl|(t & Hl & Hc)].
  - rewrite run_until_idle by done. by left.
  - destruct (decide (deadline t ≤ horizon)).
    + left. rewrite (run_until_single_due _ _ _ _ _ Hl) by done.
      unfold later, invoke. simpl. rewrite Hc. simpl. rewrite Hl.
      rewrite filter_cons_False by (by intros []).
      by destruct (call apply_code func (callback t)), (is_function func).
    + rewrite (run_until_single_late _ _ _ _ _ Hl) by lia. right. by exists t.
Qed.

Lemma tidy_executedFunction (wait : Z) (args : list Value) (l : Debounced) :
  tidy l → tidy (executedFunction wait args l).2.
Proof.
  intros Hl. right. unfold executedFunction. simpl.
  assert (timers (clearTimeout (closure l) l) = []) as Hclear.
  { destruct Hl as [Hl|(t & Hl & Hc)].
    - destruct (closure l); simpl; by rewrite ?Hl.
    - rewrite Hc. simpl. rewrite Hl. by rewrite filter_cons_False by (by intros []). }
  rewrite Hclear. by eexists.
Qed.

(** X13: a debounced wrapper never has more than one timer pending,
    whatever it wraps, whatever the delay, whenever it is called and
    whatever the event loop does with a timer due at the time of a call:
    every call clears the timer of the call before it. *)
Theorem debounce_one_timer_pending
    (apply_code : nat → list Value → Completion Value) (func : Value)
    (wait t0 T : Z) (ties : list bool) (cs : list (Z * list Value)) :
  (length (timers (debounce_calls apply_code func wait ties cs (debounce t0))) ≤ 1)%nat ∧
  (length (timers (debounce_run apply_code func wait ties cs T (debounce t0))) ≤ 1)%nat.
Proof.
  assert (∀ l, tidy l → (length (timers l) ≤ 1)%nat) as Hlen.
  { intros l [->|(t & -> & _)]; simpl; lia. }
  assert (∀ ties l, tidy l → tidy (debounce_calls apply_code func wait ties cs l))
    as Hcalls.
  { induction cs as [|c cs IH]; intros ties' l Hl; [done|].
    cbn [debounce_calls]. apply IH. unfold debounced_at.
    by apply tidy_executedFunction, tidy_run_until. }
  assert (tidy (debounce t0)) as H0 by (by left).
  split; apply Hlen; [by apply Hcalls|]. by apply tidy_run_until, Hcalls.
Qed.

(** X22: a [wait] of 2^31 milliseconds or more, up to 2^32, is no wait
    at all: [setTimeout] takes it as a negative delay, the timer of a
    call is due at the time of the call, and the function is invoked
    then. *)
Theorem debounce_overflowing_wait
    (apply_code : nat → list Value → Completion Value) (name : jsstring) (code : nat)
    (wait t0 T : Z) (ties : list bool) (c : Z * list Value) :
  2147483648 ≤ wait < 4294967296 → t0 ≤ c.1 → c.1 ≤ T →
  let func := VFunction name code in
  deadline <$> timers (debounce_calls apply_code func wait ties [c] (debounce t0)) = [c.1] ∧
  invocations (debounce_run apply_code func wait ties [c] T (debounce t0)) = [c].
Proof.
  intros Hwait Ht0 HT func.
  assert (timer_delay wait = 0) as Hd.
  { unfold timer_delay, to_long.
    replace (wait + 2147483648) with (wait - 2147483648 + 1 * 4294967296) by lia.
    rewrite Z.mod_add, Z.mod_small by lia. lia. }
  pose proof (first_call_arms_after apply_code name code wait (default true (head ties))
                t0 c Ht0) as Hl.
  rewrite Hd in Hl.
  destruct (armed_after_fires apply_code name code wait c.1 T c.2 [] [] _
              ltac:(by rewrite Hd) ltac:(rewrite Hd; lia)) as (_ & _ & Hinv & _).
  rewrite Hd in Hinv.
  destruct Hl as (id & _ & Ht & _). split.
  - cbn [debounce_calls]. fold func in Ht. rewrite Ht. simpl. f_equal. lia.
  - unfold debounce_run. cbn [debounce_calls]. fold func in Hinv. rewrite Hinv.
    simpl. by rewrite Z.add_0_r, pair_eta.
Qed.

Lemma debounce_overflowing_wait_witness :
  invocations
    (debounce_run sample_code (VFunction (js "f") 0) 2147483648 [] [(5, [VNumber 1])] 5
       (debounce 0))
  = [(5, [VNumber 1])].
Proof.
  refine (proj2 (debounce_overflowing_wait sample_code (js "f") 0 2147483648 0 5 []
            (5, [VNumber 1]) _ _ _)); simpl; lia.
Defined.

(** ** throttle *)

Section ThrottleTrace.
Variable run_code : nat → list Value → Throttled → Completion Value * Throttled.
Variables (name : jsstring) (code : nat) (limit : Z).

Let func := VFunction name code.
Let delay := timer_delay limit.


End ThrottleTrace.

Section ThrottleThrowing.
Variable apply_code : nat → list Value → Completion Value.
Variables (name : jsstring) (code : nat) (limit : Z).
Hypothesis throws : ∀ args, ∃ e, apply_code code args = Abrupt e.

Let func := VFunction name code.

Lemma idle_call_throws (b : bool) (c : Z * list Value) (l : Throttled) :
  closure l = false → timers l = [] → now l ≤ c.1 →
  let l' := (throttled_at (detached apply_code) func limit b c l).2 in
  (∃ e, (throttled_at (detached apply_code) func limit b c l).1 = Abrupt e) ∧
  closure l' = false ∧ timers l' = [] ∧ now l' = c.1 ∧
  invocations l' = invocations l ++ [c].
Proof.
  intros Hc Ht ?. unfold throttled_at. rewrite arrive_idle by done.
  unfold throttled, apply_function, detached. simpl. rewrite Hc. simpl.
  destruct (throws c.2) as [e ->]. simpl. rewrite Z.max_r, pair_eta by lia.
  split_and!; try done. by exists e.
Qed.

Lemma throttle_trace_throwing (ties : list bool) (cs : list (Z * list Value))
    (l : Throttled) :
  closure l = false → timers l = [] → ascending (now l) cs →
  let l' := throttle_calls (detached apply_code) func limit ties cs l in
  closure l' = false ∧ timers l' = [] ∧ invocations l' = invocations l ++ cs.
Proof.
  revert ties l. induction cs as [|c cs IH]; intros ties l Hc Ht Hcs.
  { cbn zeta. simpl. by rewrite app_nil_r. }
  destruct Hcs as [? Hcs].
  destruct (idle_call_throws (default true (head ties)) c l Hc Ht)
    as (_ & Hc' & Ht' & Hnow & Hinv); [done|].
  rewrite <-Hnow in Hcs. destruct (IH (tail ties) _ Hc' Ht' Hcs) as (? & ? & Hinv').
  cbn zeta in *. cbn [throttle_calls].
  split_and!; try done. by rewrite Hinv', Hinv, <-app_assoc.
Qed.
End ThrottleThrowing.




(** X15: a function that throws is not throttled at all.  Every wrapper
    call, in time order, invokes it and ends with what it threw, no timer
    is ever started and [inThrottle] stays unset. *)
Theorem throttle_never_holds_a_throwing_function
    (apply_code : nat → list Value → Completion Value) (name : jsstring) (code : nat)
    (limit t0 T : Z) (ties : list bool) (cs : list (Z * list Value)) :
  (∀ args, ∃ e, apply_code code args = Abrupt e) →
  ascending t0 cs →
  let func := VFunction name code in
  let l := throttle_calls (detached apply_code) func limit ties cs (throttle t0) in
  invocations l = cs ∧ timers l = [] ∧ closure l = false ∧
  invocations (throttle_run (detached apply_code) func limit ties cs T (throttle t0)) = cs ∧
  (∀ (args : list Value) (l' : Throttled),
     ∃ e, call apply_code func args = Abrupt e ∧
          (closure l' = false →
           (throttled (detached apply_code) func limit args l').1 = Abrupt e)).
Proof.
  intros throws Hcs func l.
  destruct (throttle_trace_throwing apply_code name code limit throws ties cs (throttle t0))
    as (Hc & Ht & Hinv); [done..|].
  fold func l in Hc, Ht, Hinv. split_and!; try done.
  - unfold throttle_run. fold func l. by rewrite advance_idle.
  - intros args l'. destruct (throws args) as [e He]. exists e. split; [done|].
    intros Hl'. unfold throttled, apply_function, detached. rewrite Hl'. simpl.
    by rewrite He.
Qed.

Lemma throttle_never_holds_a_throwing_function_witness :
  invocations
    (throttle_run (detached sample_code) (VFunction (js "g") 1) 100 []
       [(0, []); (10, []); (20, [])] 1000 (throttle 0))
  = [(0, []); (10, []); (20, [])].
Proof.
  refine (proj1 (proj2 (proj2 (proj2
            (throttle_never_holds_a_throwing_function sample_code (js "g") 1 100 0 1000 []
               [(0, []); (10, []); (20, [])] _ _))))).
  - intros args. simpl. eauto.
  - simpl. lia.
Defined.

(** X21: a function that calls the wrapper from inside its own first
    invocation is invoked again at once, at the same instant and within
    [limit]: [inThrottle] is set when [func.apply] has returned, not
    before.  Both calls then set [inThrottle] and start a timer, so two
    timers are pending. *)
Theorem throttle_invokes_reentrant_call (limit t0 t : Z) (b : bool) :
  t0 ≤ t →
  let func := VFunction (js "f") 0 in
  let l := (throttled_at (reentrant_code limit) func limit b (t, [VNumber 1])
              (throttle t0)).2 in
  invocations l = [(t, [VNumber 1]); (t, [VNumber 2])] ∧
  closure l = true ∧
  deadline <$> timers l = [t + timer_delay limit; t + timer_delay limit] ∧
  (∀ l', throttled (reentrant_code limit) func limit [VNumber 2] l'
         = throttled quiet_code func limit [VNumber 2] l').
Proof.
  intros Ht func l. subst l. unfold throttled_at. rewrite arrive_idle by done.
  split_and!; try done.
  - simpl. by rewrite Z.max_r by lia.
  - simpl. by rewrite Z.max_r by lia.
Qed.

Lemma throttle_invokes_reentrant_call_witness :
  invocations
    (throttled_at (reentrant_code 100) (VFunction (js "f") 0) 100 true (5, [VNumber 1])
       (throttle 0)).2
  = [(5, [VNumber 1]); (5, [VNumber 2])].
Proof.
  refine (proj1 (throttle_invokes_reentrant_call 100 0 5 true _)). lia.
Defined.

(** ** Scroll animations *)

Lemma forEach_invariant {A} (P : World → Prop) (f : A → M unit) (l : list A) :
  (∀ x w, x ∈ l → P w → ∃ w', f x w = (Normal (), w') ∧ P w') →
  ∀ w, P w → ∃ w', forEach f l w = (Normal (), w') ∧ P w'.
Proof.
  induction l as [|x l IH]; intros Hf w Hw; [by exists w|].
  destruct (Hf x w) as (w1 & Hx & Hw1); [by left | done |].
  destruct IH with (w := w1) as (w' & Hl & Hw'); [|done|].
  { intros y w0 Hy. apply Hf. by right. }
  exists w'. split; [|done]. cbn [forEach]. by rewrite run_bind, Hx.
Qed.

Lemma unwatched_style_unobserve (r x : Ref) (e : option Element) (k : nat)
    (p v : jsstring) (w : World) :
  x ≠ r → unwatched r e w →
  unwatched r e
    (with_observers (alter (filter (λ t, t.1 ≠ x)) k)
       (with_log (λ l, l ++ [StyleWrite x p v])
          (with_document (update_at x (set_style p v)) w))).
Proof.
  intros Hx [He Ho]. split; simpl.
  - by rewrite element_at_update_at, decide_False.
  - apply Forall_alter; [done|]. intros o _ Hr (t & -> & Ht)%list_elem_of_fmap.
    apply list_elem_of_filter in Ht as [_ Ht]. apply Hr. by apply list_elem_of_fmap_2.
Qed.

Lemma unwatched_style_observe (r x : Ref) (e : option Element) (k : nat)
    (p v : jsstring) (w : World) :
  x ≠ r → unwatched r e w →
  unwatched r e
    (with_observers
       (alter (λ o, if bool_decide (x ∈ o.*1) then o else o ++ [(x, None)]) k)
       (with_log (λ l, l ++ [StyleWrite x p v])
          (with_document (update_at x (set_style p v)) w))).
Proof.
  intros Hx [He Ho]. split; simpl.
  - by rewrite element_at_update_at, decide_False.
  - apply Forall_alter; [done|]. intros o _ Hr. case_bool_decide; [done|].
    rewrite fmap_app, elem_of_app. simpl. rewrite list_elem_of_singleton.
    intros [?|?]; congruence.
Qed.

Lemma entries_of_targets (visible : Ref → bool) (o : Observer) (entry : Ref * bool) :
  entry ∈ entries_of visible o → entry.1 ∈ o.*1.
Proof.
  unfold entries_of. intros (t & Ht & Hentry)%list_elem_of_omap.
  case_bool_decide; [done|]. injection Hentry as <-. simpl. by apply list_elem_of_fmap_2.
Qed.

Lemma observerCallback_unwatched (r : Ref) (e : option Element) (k : nat)
    (entries : list (Ref * bool)) (w : World) :
  (∀ entry, entry ∈ entries → entry.1 ≠ r) → unwatched r e w →
  ∃ w', observerCallback k entries w = (Normal (), w') ∧ unwatched r e w'.
Proof.
  intros Hentries. unfold observerCallback. apply forEach_invariant.
  intros entry w0 Hentry Hw0. rewrite callback_step_runs. eexists. split; [done|].
  destruct entry as [x []]; [|done]. apply unwatched_style_unobserve; [|done].
  by apply (Hentries (x, true)).
Qed.

Lemma notify_unwatched (r : Ref) (e : option Element) (visible : Ref → bool) (k : nat)
    (w : World) :
  unwatched r e w → ∃ w', notify visible k w = (Normal (), w') ∧ unwatched r e w'.
Proof.
  intros [He Ho]. unfold notify. rewrite run_bind. unfold gets at 1. rewrite run_bind.
  unfold modify at 1.
  set (o := default [] (observers w !! k)).
  set (w1 := with_observers (alter (reported visible) k) w).
  assert (r ∉ o.*1) as Hr.
  { unfold o. destruct (observers w !! k) as [o'|] eqn:Hk; simpl.
    - by eapply (Forall_lookup_1 _ _ _ _ Ho Hk).
    - by intros ?%elem_of_nil. }
  assert (unwatched r e w1) as Hw1.
  { split; [done|]. simpl. apply Forall_alter; [done|]. intros o' _ Hr'.
    unfold reported. by rewrite <-list_fmap_compose. }
  assert (match entries_of visible o with
          | [] => mret () : M unit
          | _ :: _ => observerCallback k (entries_of visible o)
          end w1 = observerCallback k (entries_of visible o) w1) as ->.
  { by destruct (entries_of visible o). }
  apply observerCallback_unwatched; [|done].
  intros entry Hentry%entries_of_targets. congruence.
Qed.

Lemma rounds_unwatched (r : Ref) (e : option Element) (vs : list (Ref → bool)) (w : World) :
  unwatched r e w → ∃ w', rounds vs w = (Normal (), w') ∧ unwatched r e w'.
Proof.
  unfold rounds. apply forEach_invariant. intros visible w0 _ Hw0.
  unfold intersection_round. rewrite run_bind. unfold gets.
  apply forEach_invariant; [|done]. intros k w1 _ Hw1. by apply notify_unwatched.
Qed.

Lemma initializeAnimations_unwatched (r : Ref) (w : World) :
  observers w = [] →
  r ∉ querySelectorAll (ByAttribute (js "data-animate")) (document w) →
  ∃ w', initializeAnimations w = (Normal (), w') ∧
        unwatched r (element_at (document w) r) w'.
Proof.
  intros Hobs Hr. unfold initializeAnimations. rewrite run_bind. unfold gets at 1.
  rewrite run_bind. unfold gets at 1.
  set (elements := querySelectorAll _ _) in *.
  destruct (_ && _).
  - rewrite run_bind, newObserver_runs, Hobs.
    apply forEach_invariant.
    + intros x w0 Hx Hw0. rewrite init_step_runs. eexists. split; [done|].
      apply unwatched_style_observe; [|done]. congruence.
    + split; [done|]. simpl. rewrite Hobs. simpl.
      apply Forall_singleton. by intros ?%elem_of_nil.
  - exists w. split; [done|]. split; [done|]. by rewrite Hobs.
Qed.

(** X16: on a freshly loaded page an element without the [data-animate]
    attribute is never hidden and never animated: after
    [initializeAnimations] and any rounds of visibility it is exactly the
    element it was, and nothing ever throws. *)
Theorem initializeAnimations_leaves_other_elements (w : World) (vs : list (Ref → bool))
    (r : Ref) :
  observers w = [] →
  r ∉ querySelectorAll (ByAttribute (js "data-animate")) (document w) →
  let w1 := (initializeAnimations w).2 in
  let w2 := (rounds vs w1).2 in
  (initializeAnimations w).1 = Normal () ∧
  (rounds vs w1).1 = Normal () ∧
  element_at (document w1) r = element_at (document w) r ∧
  element_at (document w2) r = element_at (document w) r.
Proof.
  intros Hobs Hr.
  destruct (initializeAnimations_unwatched r w Hobs Hr) as (w1 & -> & Hw1).
  destruct (rounds_unwatched r _ vs w1 Hw1) as (w2 & H2 & Hw2).
  cbn [fst snd]. rewrite H2. cbn [fst snd].
  split_and!; try done; [by destruct Hw1 | by destruct Hw2].
Qed.

Lemma initializeAnimations_leaves_other_elements_witness :
  element_at (document (rounds sample_rounds (initializeAnimations page_with_animations).2).2)
    RBody
  = element_at (document page_with_animations) RBody.
Proof.
  refine (proj2 (proj2 (proj2 (initializeAnimations_leaves_other_elements
            page_with_animations sample_rounds RBody eq_refl _)))).
  vm_compute. intros H. inversion H as [|? ? ? H']. inversion H' as [|? ? ? H'']. inversion H''.
Defined.

(** ** Page start *)









(** ** Performance measurement *)

Lemma suffix_names (name : jsstring) :
  name ++ js "-start" ≠ name ∧ name ++ js "-end" ≠ name ∧
  name ++ js "-start" ≠ name ++ js "-end".
Proof.
  split_and!.
  - intros H. apply (f_equal length) in H. rewrite length_app in H. simpl in H. lia.
  - intros H. apply (f_equal length) in H. rewrite length_app in H. simpl in H. lia.
  - intros H%app_inv_head. discriminate H.
Qed.

Section PerformanceFacts.
Context {number : Type}.
Variables (zero : number) (minus : number → number → number)
  (leb : number → number → bool).

Lemma most_recent_mark_app_none (n : jsstring) (l added : list (PerformanceEntry number)) :
  Forall (λ x, entry_name x ≠ n) added →
  most_recent_mark n (l ++ added) = most_recent_mark n l.
Proof.
  intros H. unfold most_recent_mark. rewrite filter_app.
  assert (filter (λ x : PerformanceEntry number,
                    entryType x = MarkEntry ∧ entry_name x = n) added = []) as ->.
  { induction H as [|x added Hx _ IH]; [done|].
    by rewrite filter_cons_False by tauto. }
  by rewrite app_nil_r.
Qed.

Lemma most_recent_mark_snoc (n : jsstring) (l : list (PerformanceEntry number))
    (t d : number) :
  most_recent_mark n (l ++ [mkEntry n MarkEntry t d]) = Some t.
Proof.
  unfold most_recent_mark. rewrite filter_app, filter_cons_True, filter_nil by done.
  by rewrite last_snoc.
Qed.

Lemma filter_name_none (n : jsstring) (added : list (PerformanceEntry number)) :
  Forall (λ x, entry_name x ≠ n) added →
  filter (λ x : PerformanceEntry number, entry_name x = n) added = [].
Proof.
  induction 1 as [|x added Hx _ IH]; [done|]. by rewrite filter_cons_False.
Qed.

Lemma measurePerformance_runs (name : jsstring)
    (callback : Timing number → Completion Value * Timing number)
    (p p2 : Timing number) (result : Value) (added : list (PerformanceEntry number)) :
  performance_mark p = true →
  callback (mark zero (name ++ js "-start") p) = (Normal result, p2) →
  timeline p2 = timeline (mark zero (name ++ js "-start") p) ++ added →
  Forall (λ x, entry_name x ≠ name ∧ entry_name x ≠ name ++ js "-start" ∧
               entry_name x ≠ name ++ js "-end") added →
  let m := mkEntry name MeasureEntry (clock p) (minus (clock p2) (clock p)) in
  let p3 := add_entry m (mark zero (name ++ js "-end") p2) in
  measurePerformance zero minus leb name callback p
  = match chronological leb (filter (λ x, entry_name x = name) (timeline p) ++ [m]) with
    | first :: _ => (Normal result, console_log name (duration first) p3)
    | [] => (Abrupt TypeError, p3)
    end.
Proof.
  intros Hmark Hcb Htl Hadded m p3. unfold measurePerformance. rewrite Hmark, Hcb.
  destruct (suffix_names name) as (Hs & He & Hse).
  unfold measure. cbn [timeline mark add_entry]. rewrite Htl. cbn [timeline mark add_entry].
  rewrite most_recent_mark_snoc.
  rewrite (most_recent_mark_app_none _ (_ ++ added) [_])
    by (apply Forall_singleton; simpl; congruence).
  rewrite most_recent_mark_app_none
    by (eapply Forall_impl; [exact Hadded|]; simpl; tauto).
  rewrite most_recent_mark_snoc.
  unfold getEntriesByName. cbn [timeline mark add_entry]. rewrite Htl.
  cbn [timeline mark add_entry].
  rewrite !filter_app.
  rewrite (filter_name_none name added)
    by (eapply Forall_impl; [exact Hadded|]; simpl; tauto).
  rewrite !filter_cons_False, filter_cons_True, !filter_nil, !app_nil_r by (simpl; congruence).
  fold m. subst p3. unfold mark, add_entry. cbn [timeline clock performance_mark console].
  by rewrite Htl.
Qed.
End PerformanceFacts.

(** X18: [measurePerformance] where the timing API is missing is the
    callback alone.  Where it exists, a callback that throws ends the
    call with what it threw, right after the start mark: no end mark, no
    measure, no log line.  A callback that returns, on a timeline with no
    entry of that name yet, gives back its result, and the line logged
    carries the time from the start mark to the end mark; the timeline
    gets the two marks and the measure. *)
Theorem measurePerformance_first_use {number : Type} (zero : number)
    (minus : number → number → number) (leb : number → number → bool)
    (name : jsstring) (callback : Timing number → Completion Value * Timing number)
    (p : Timing number) :
  let started := mark zero (name ++ js "-start") p in
  (performance_mark p = false →
   measurePerformance zero minus leb name callback p = callback p) ∧
  (performance_mark p = true → ∀ e p2,
   callback started = (Abrupt e, p2) →
   measurePerformance zero minus leb name callback p = (Abrupt e, p2)) ∧
  (performance_mark p = true →
   filter (λ x, entry_name x = name) (timeline p) = [] →
   ∀ result p2 added,
   callback started = (Normal result, p2) →
   timeline p2 = timeline started ++ added →
   Forall (λ x, entry_name x ≠ name ∧ entry_name x ≠ name ++ js "-start" ∧
                entry_name x ≠ name ++ js "-end") added →
   ∃ p', measurePerformance zero minus leb name callback p = (Normal result, p') ∧
         console p' = console p2 ++ [(name, minus (clock p2) (clock p))] ∧
         timeline p'
         = timeline p2
           ++ [mkEntry (name ++ js "-end") MarkEntry (clock p2) zero;
               mkEntry name MeasureEntry (clock p) (minus (clock p2) (clock p))] ∧
         clock p' = clock p2).
Proof.
  intros started. split_and!.
  - intros H. unfold measurePerformance. by rewrite H.
  - intros H e p2 Hcb. unfold measurePerformance. fold started. by rewrite H, Hcb.
  - intros H Hnone result p2 added Hcb Htl Hadded.
    rewrite (measurePerformance_runs zero minus leb name callback p p2 result added)
      by done.
    rewrite Hnone. eexists. split; [reflexivity|].
    split_and!; try done. simpl. by rewrite <-app_assoc.
Qed.

Lemma measurePerformance_first_use_witness :
  ∃ p', measurePerformance 0 Z.sub Z.leb (js "load") (takes 25) empty_timing
        = (Normal (VNumber 7), p') ∧
        console p' = [(js "load", 1025 - 1000)] ∧
        timeline p'
        = [mkEntry (js "load-start") MarkEntry 1000 0;
           mkEntry (js "load-end") MarkEntry 1025 0;
           mkEntry (js "load") MeasureEntry 1000 (1025 - 1000)] ∧
        clock p' = 1025.
Proof.
  exact (proj2 (proj2 (measurePerformance_first_use 0 Z.sub Z.leb (js "load") (takes 25)
                         empty_timing))
           eq_refl eq_refl (VNumber 7) _ [] eq_refl eq_refl (Forall_nil_2 _)).
Defined.

(** X19: the line logged is made from the first entry of that name, not
    from the measure just taken.  When [measurePerformance] runs a second
    time under the same name (the callbacks adding no entries, the clock
    not running backwards), the second line repeats the duration of the
    first run, whatever the second run took. *)
Theorem measurePerformance_repeats_first_duration {number : Type} (zero : number)
    (minus : number → number → number) (leb : number → number → bool)
    (name : jsstring) (first second : Timing number → Completion Value * Timing number)
    (p p2 q2 : Timing number) (r1 r2 : Value) :
  performance_mark p = true →
  filter (λ x, entry_name x = name) (timeline p) = [] →
  first (mark zero (name ++ js "-start") p) = (Normal r1, p2) →
  timeline p2 = timeline (mark zero (name ++ js "-start") p) →
  performance_mark p2 = true →
  leb (clock p) (clock p2) = true →
  let q := (measurePerformance zero minus leb name first p).2 in
  second (mark zero (name ++ js "-start") q) = (Normal r2, q2) →
  timeline q2 = timeline (mark zero (name ++ js "-start") q) →
  console q = console p2 ++ [(name, minus (clock p2) (clock p))] ∧
  ∃ q', measurePerformance zero minus leb name second q = (Normal r2, q') ∧
        console q' = console q2 ++ [(name, minus (clock p2) (clock p))].
Proof.
  intros Hmark Hnone Hcb1 Htl1 Hmark2 Hleb q Hcb2 Htl2.
  assert (Hq : measurePerformance zero minus leb name first p
               = (Normal r1,
                  console_log name (minus (clock p2) (clock p))
                    (add_entry (mkEntry name MeasureEntry (clock p) (minus (clock p2) (clock p)))
                       (mark zero (name ++ js "-end") p2)))).
  { rewrite (measurePerformance_runs zero minus leb name first p p2 r1 [])
      by (rewrite ?app_nil_r; done).
    by rewrite Hnone. }
  subst q. rewrite Hq in *. cbn [snd] in *. split; [done|].
  set (q := console_log _ _ _) in *.
  destruct (suffix_names name) as (Hs & He & Hse).
  rewrite (measurePerformance_runs zero minus leb name second q q2 r2 [])
    by (rewrite ?app_nil_r; done).
  assert (filter (λ x : PerformanceEntry number, entry_name x = name) (timeline q)
          = [mkEntry name MeasureEntry (clock p) (minus (clock p2) (clock p))]) as ->.
  { unfold q. cbn [timeline console_log add_entry mark]. rewrite Htl1.
    cbn [timeline mark add_entry]. rewrite !filter_app, Hnone.
    by rewrite !filter_cons_False, filter_cons_True, !filter_nil by (simpl; congruence). }
  assert (clock q = clock p2) as Hclock by done.
  cbn [chronological foldr app insert_entry startTime]. rewrite Hclock, Hleb.
  eexists. split; [reflexivity|]. done.
Qed.

Lemma measurePerformance_repeats_first_duration_witness :
  ∃ q', measurePerformance 0 Z.sub Z.leb (js "load") (takes 400)
          (measurePerformance 0 Z.sub Z.leb (js "load") (takes 25) empty_timing).2
        = (Normal (VNumber 7), q') ∧
        console q' = [(js "load", 1025 - 1000)] ++ [(js "load", 1025 - 1000)].
Proof.
  refine (proj2 (measurePerformance_repeats_first_duration 0 Z.sub Z.leb (js "load")
            (takes 25) (takes 400) empty_timing _ _ (VNumber 7) (VNumber 7)
            eq_refl eq_refl eq_refl eq_refl eq_refl eq_refl eq_refl eq_refl)).
Defined.

(** ** Smooth scrolling *)

(** X20: [smoothScrollTo] changes nothing on the page, whatever its
    target.  Where the target is no selector it ends with the
    [SyntaxError] of [querySelector] and asks for no scroll; where
    nothing matches it ends normally and asks for none; where an element
    matches it asks for one scroll, to the top of that element plus the
    page offset, less the 80 of the fixed header. *)
Theorem smoothScrollTo_requests_one_scroll (select : jsstring → Document → Completion (option Ref))
    (target : jsstring) (w : World) :
  let result := (smoothScrollTo select target w).1 in
  let w' := (smoothScrollTo select target w).2 in
  document w' = document w ∧ localStorage w' = localStorage w ∧
  listeners w' = listeners w ∧ observers w' = observers w ∧
  (∀ e, select target (document w) = Abrupt e → result = Abrupt e ∧ log w' = log w) ∧
  (select target (document w) = Normal None → result = Normal () ∧ log w' = log w) ∧
  (∀ r e, select target (document w) = Normal (Some r) →
          element_at (document w) r = Some e →
          result = Normal () ∧
          log w' = log w ++ [ScrollTo (rectTop e + pageYOffset w - 80)]).
Proof.
  cbn zeta. unfold smoothScrollTo. rewrite run_bind. unfold document_querySelector.
  destruct (select target (document w)) as [[r|]|e]; cbn [fst snd]; split_and!; try done.
  - intros ? e [= <-] He. simpl. by rewrite He.
  - by intros ? [= <-].
Qed.

Lemma smoothScrollTo_requests_one_scroll_witness :
  (smoothScrollTo sample_select (js ".nav-link") page_with_navigation).1 = Normal () ∧
  log (smoothScrollTo sample_select (js ".nav-link") page_with_navigation).2
  = log page_with_navigation ++ [ScrollTo (0 + pageYOffset page_with_navigation - 80)].
Proof.
  refine (proj2 (proj2 (proj2 (proj2 (proj2 (proj2
            (smoothScrollTo_requests_one_scroll sample_select (js ".nav-link")
               page_with_navigation))))))
            (RNode 0) (mkElement {[ js "href" := js "index.html" ]}
                         [js "nav-link"; js "active"] ∅ [] [] 0) _ _).
  - reflexivity.
  - reflexivity.
Defined.
